(** * Task-Reminder-App: the task store, the history store and the overdue monitor

    A shallow embedding of the client logic of the Task Reminder App
    ([client/src/context/TaskContext.jsx], [context/HistoryContext.jsx],
    [hooks/useAutoCheck.js], [utils/dateUtils.js], [components/AIEngine.js],
    [components/TaskForm.jsx], [App.jsx]) and the properties of its
    specification.

    Conventions.
    - A point in time is the time value of a JavaScript [Date]: an integer
      number of milliseconds since the epoch ([Z]).  Every function that reads
      the clock with [new Date()] or [Date.now()] takes that reading as an
      explicit argument [now].
    - React state ([useState]) and the [useRef] cell of the monitor are
      threaded explicitly: an action is a function from the state before to
      the state after.  Calls to the notification utilities are appended to a
      log.
    - The history object (a JavaScript object used as a map from day keys to
      buckets) is a [gmap string DayBucket]. *)

From Stdlib Require Import ZArith Lia Ascii String SpecFloat.
From stdpp Require Import gmap strings list sorting pretty.

Local Open Scope Z_scope.

(** ** Data model *)

(** A task object, as [addTask] builds it.  [task_completedAt] is absent
    ([None]) until [completeTask] writes it. *)
Record Task := mkTask {
  task_id : Z;
  task_title : string;
  task_deadline : string;
  task_completed : bool;
  task_completedAt : option string;
  task_createdAt : string;
  task_notified : bool;
}.

(** The argument of [addTask]: the [{ title, deadline }] object of the form. *)
Record TaskInput := mkInput {
  input_title : string;
  input_deadline : string;
}.

(** One entry of the history object: [{ completed, missed }]. *)
Record DayBucket := mkDay {
  day_completed : Z;
  day_missed : Z;
}.

(** A call to one of the notification utilities of [utils/notification.js]. *)
Inductive Notice :=
| OverdueNotice (t : Task)      (* notifyOverdueTask(task) *)
| CompletedNotice (t : Task).   (* notifyTaskCompleted(task) *)

(** The state of the running application: the two React providers, the
    [notifiedTasksRef] set of the [useAutoCheck] hook (a JavaScript [Set],
    kept in insertion order) and the log of notification calls. *)
Record App := mkApp {
  tasks : list Task;
  streak : Z;
  history : gmap string DayBucket;
  notifiedTasks : list Z;
  notices : list Notice;
}.

(** What one run of the check of [useAutoCheck] can touch: the hook's own set
    of notified task identifiers ([notifiedTasksRef.current]), the log of
    notification calls, and whatever state [W] the [onTaskOverdue] callback
    acts on. *)
Record Monitor (W : Type) := mkMonitor {
  seen : list Z;
  shown : list Notice;
  world : W;
}.
Arguments mkMonitor {W} _ _ _.
Arguments seen {W} _.
Arguments shown {W} _.
Arguments world {W} _.

#[global] Instance Task_eq_dec : EqDecision Task.
Proof. solve_decision. Defined.

#[global] Instance DayBucket_eq_dec : EqDecision DayBucket.
Proof. solve_decision. Defined.

(** ** JavaScript helpers *)

(** [x || 0] on a number: [0] (the only falsy integer) is replaced by [0]. *)
Definition or_zero (x : Z) : Z := if x =? 0 then 0 else x.

(** [s.split('T')[0]]: the part of [s] before the first ['T']. *)
Fixpoint split_T_head (s : string) : string :=
  match s with
  | EmptyString => EmptyString
  | String c rest =>
      if Ascii.eqb c "T"%char then EmptyString else String c (split_T_head rest)
  end.

(** [set.has(x)] and [set.add(x)] of a JavaScript [Set] of numbers. *)
Definition set_has (s : list Z) (x : Z) : bool := bool_decide (x ∈ s).
Definition set_add (s : list Z) (x : Z) : list Z :=
  if set_has s x then s else s ++ [x].

(** [arr.find(pred)]. *)
Definition find_task (p : Task → bool) (l : list Task) : option Task :=
  List.find p l.

(** ** JavaScript numbers

    A JavaScript Number is an IEEE 754 binary64 value.  The arithmetic of the
    application only meets finite, non-negative Numbers far from the overflow
    and underflow thresholds (counts, their quotients and percentages), so a
    Number is modelled as the dyadic rational [mant * 2^expo] it denotes, and
    an inexact operation rounds its exact result to 53 significant bits, to
    nearest, ties to even. *)

Record Number := mkNum { mant : Z; expo : Z }.

Definition pow2 (k : Z) : Z := 2 ^ Z.max 0 k.

(** The value of [x] is the fraction [num x / den x]. *)
Definition num (x : Number) : Z := mant x * pow2 (expo x).
Definition den (x : Number) : Z := pow2 (- expo x).

(** The integer nearest to [a / b], ties to even. *)
Definition round_nearest_even (a b : Z) : Z :=
  let f := a / b in
  match 2 * (a mod b) ?= b with
  | Lt => f
  | Gt => f + 1
  | Eq => if Z.even f then f else f + 1
  end.

(** The exponent [e] with [2^52 <= (p / q) / 2^e < 2^53], for [p, q > 0]. *)
Definition binade (p q : Z) : Z :=
  let e0 := Z.log2 p - Z.log2 q - 52 in
  if p * pow2 (- e0) <? 2 ^ 52 * (q * pow2 e0) then e0 - 1 else e0.

(** The Number nearest to [p / q], for [0 <= p] and [0 < q]. *)
Definition round53 (p q : Z) : Number :=
  if p =? 0 then mkNum 0 0
  else
    let e := binade p q in
    mkNum (round_nearest_even (p * pow2 (- e)) (q * pow2 e)) e.

(** An integer of magnitude below [2^53] is a Number as it stands. *)
Definition of_int (z : Z) : Number := mkNum z 0.

(** [x / y] (for [y] non-zero) and [x * y]. *)
Definition fdiv (x y : Number) : Number := round53 (num x * den y) (den x * num y).
Definition fmul (x y : Number) : Number := round53 (num x * num y) (den x * den y).

(** [Math.round(x)]: the integer nearest to [x], ties towards [+Infinity],
    that is [floor (x + 1/2)]. *)
Definition Math_round (x : Number) : Z := (2 * num x + den x) / (2 * den x).

(** [Math.round((c / n) * 100)] on two counts, the expression shared by
    [disciplineScore] and [getOverallCompletionRate]. *)
Definition percent (c n : Z) : Z :=
  Math_round (fmul (fdiv (of_int c) (of_int n)) (of_int 100)).

(** The same product computed with the executable specification of IEEE 754
    arithmetic of the standard library ([SpecFloat], instantiated to
    binary64), to compare the model above with. *)
Module Binary64.

Definition of_Z (z : Z) : spec_float := binary_normalize 53 1024 z 0 false.

Definition scaled_quotient (c n : Z) : spec_float :=
  SFmul 53 1024 (SFdiv 53 1024 (of_Z c) (of_Z n)) (of_Z 100).

Definition to_Number (x : spec_float) : option Number :=
  match x with
  | S754_zero _ => Some (mkNum 0 0)
  | S754_finite false m e => Some (mkNum (Zpos m) e)
  | _ => None
  end.

Definition same_value (x y : Number) : bool := num x * den y =? num y * den x.

Definition agrees (c n : Z) : bool :=
  match to_Number (scaled_quotient c n) with
  | Some y => same_value y (fmul (fdiv (of_int c) (of_int n)) (of_int 100))
  | None => false
  end.

(** All pairs [(c, n)] with [0 <= c <= n] and [1 <= n <= bound]. *)
Definition pairs (bound : Z) : list (Z * Z) :=
  n ← seqZ 1 bound; c ← seqZ 0 (n + 1); [(c, n)].

(** Some pairs of larger counts. *)
Definition larger_pairs : list (Z * Z) :=
  [(29, 200); (57, 200); (113, 200); (115, 200); (999, 1000); (1, 4294967295)] ++
  ((λ k, (k * 7919 + 13, k * 104729 + 1000003)) <$> seqZ 0 200).

End Binary64.

(** ** A sample host

    The examples below run the application on a host whose local time zone is
    UTC and whose date parser reads the [YYYY-MM-DDTHH:mm] strings a
    [datetime-local] input produces. *)

Module Host.

Definition ms_per_day : Z := 86400000.

Definition digit (n : Z) : ascii := ascii_of_nat (48 + Z.to_nat (n mod 10)).

Definition digits2 (n : Z) : string :=
  String (digit (n / 10)) (String (digit n) EmptyString).

Definition digits3 (n : Z) : string := String (digit (n / 100)) (digits2 n).

Definition digits4 (n : Z) : string := String (digit (n / 1000)) (digits3 n).

(** The civil date (year, month, day) of a day number counted from
    1970-01-01, in the proleptic Gregorian calendar. *)
Definition civil_from_days (days : Z) : Z * Z * Z :=
  let z := days + 719468 in
  let era := z / 146097 in
  let doe := z - era * 146097 in
  let yoe := (doe - doe / 1460 + doe / 36524 - doe / 146096) / 365 in
  let doy := doe - (365 * yoe + yoe / 4 - yoe / 100) in
  let mp := (5 * doy + 2) / 153 in
  let d := doy - (153 * mp + 2) / 5 + 1 in
  let m := if mp <? 10 then mp + 3 else mp - 9 in
  let y := yoe + era * 400 + (if m <=? 2 then 1 else 0) in
  (y, m, d).

Definition days_from_civil (y m d : Z) : Z :=
  let y' := if m <=? 2 then y - 1 else y in
  let era := y' / 400 in
  let yoe := y' - era * 400 in
  let doy := (153 * (if 2 <? m then m - 3 else m + 9) + 2) / 5 + d - 1 in
  let doe := yoe * 365 + yoe / 4 - yoe / 100 + doy in
  era * 146097 + doe - 719468.

(** [new Date(t).toISOString()], for years 0000 to 9999. *)
Definition toISOString (t : Z) : string :=
  let '(y, m, d) := civil_from_days (t / ms_per_day) in
  let ms := t mod ms_per_day in
  (digits4 y +:+ "-" +:+ digits2 m +:+ "-" +:+ digits2 d +:+ "T" +:+
   digits2 (ms / 3600000) +:+ ":" +:+ digits2 (ms / 60000 mod 60) +:+ ":" +:+
   digits2 (ms / 1000 mod 60) +:+ "." +:+ digits3 (ms mod 1000) +:+ "Z")%string.

Definition digit_value (c : ascii) : option Z :=
  let n := Z.of_nat (nat_of_ascii c) in
  if (48 <=? n) && (n <=? 57) then Some (n - 48) else None.

Fixpoint number_of (cs : list ascii) (acc : Z) : option Z :=
  match cs with
  | [] => Some acc
  | c :: rest =>
      match digit_value c with
      | Some v => number_of rest (10 * acc + v)
      | None => None
      end
  end.

(** The time value of [new Date(s)] for [s] of the form [YYYY-MM-DDTHH:mm];
    every other string is an [Invalid Date]. *)
Definition parseDate (s : string) : option Z :=
  match list_ascii_of_string s with
  | [y1; y2; y3; y4; s1; m1; m2; s2; d1; d2; t; h1; h2; s3; n1; n2] =>
      if Ascii.eqb s1 "-" && Ascii.eqb s2 "-" && Ascii.eqb t "T" && Ascii.eqb s3 ":"
      then
        match number_of [y1; y2; y3; y4] 0, number_of [m1; m2] 0,
              number_of [d1; d2] 0, number_of [h1; h2] 0, number_of [n1; n2] 0 with
        | Some y, Some m, Some d, Some h, Some n =>
            if (1 <=? m) && (m <=? 12) && (1 <=? d) && (h <=? 23) && (n <=? 59)
               && bool_decide (civil_from_days (days_from_civil y m d) = (y, m, d))
            then Some (days_from_civil y m d * ms_per_day + h * 3600000 + n * 60000)
            else None
        | _, _, _, _, _ => None
        end
      else None
  | _ => None
  end.

(** [d.setDate(d.getDate() - k)] where the local calendar is UTC. *)
Definition setDateBack (t k : Z) : Z := t - k * ms_per_day.

End Host.

(** ** A host with a clock change

    The same host set to Central European Time, for instants in the first
    nine months of 2026: local time is UTC+1 until 2026-03-29T01:00:00Z and
    UTC+2 from then on.  [toISOString] and the parser of UTC strings do not
    depend on the time zone; [setDate] does. *)

Module Berlin.

(** 2026-03-29T01:00:00.000Z, when local clocks go from 02:00 to 03:00. *)
Definition switch : Z := 1774746000000.

Definition offset (t : Z) : Z := if t <? switch then 3600000 else 7200000.

(** [LocalTime(t)]. *)
Definition local (t : Z) : Z := t + offset t.

(** [UTC(l)]: the time value of the local time [l]; a local time the clock
    change skips is read with the offset in force before the change. *)
Definition utc (l : Z) : Z :=
  if l <? switch + 7200000 then l - 3600000 else l - 7200000.

(** [d.setDate(d.getDate() - k)]: the same local time of day, [k] days
    earlier in the local calendar. *)
Definition setDateBack (t k : Z) : Z := utc (local t - k * Host.ms_per_day).

End Berlin.


(** ** Sample data *)

Module Sample.

(** 2026-02-20T05:30:00.000Z, the clock reading of the examples. *)
Definition now : Z := 1771565400000.

(** The application as it starts on a browser without stored state. *)
Definition fresh : App := mkApp [] 0 ∅ [] [].

(** A pending task, added on 2026-02-19 and due on 2026-02-21. *)
Definition report : Task :=
  {| task_id := 1771500000000;
     task_title := "Write report";
     task_deadline := "2026-02-21T09:00";
     task_completed := false;
     task_completedAt := None;
     task_createdAt := "2026-02-19T11:20:00.000Z";
     task_notified := false |}.

(** A pending task, added on 2026-02-18 and due on 2026-02-19: overdue at
    [now]. *)
Definition rent : Task :=
  {| task_id := 1771437600000;
     task_title := "Pay rent";
     task_deadline := "2026-02-19T09:00";
     task_completed := false;
     task_completedAt := None;
     task_createdAt := "2026-02-18T18:00:00.000Z";
     task_notified := false |}.

Definition one_task : App := mkApp [report] 0 ∅ [] [].

(** A list of [n] tasks, the first [done] of them completed. *)
Definition numbered (done i : Z) : Task :=
  {| task_id := i;
     task_title := "task";
     task_deadline := "2026-03-01T09:00";
     task_completed := i <? done;
     task_completedAt := None;
     task_createdAt := "2026-02-19T11:20:00.000Z";
     task_notified := false |}.

Definition batch (done n : Z) : list Task := numbered done <$> seqZ 0 n.

(** The history [{d1: {completed: 3, missed: 1}, d2: {completed: 2, missed: 0}}]. *)
Definition two_days : gmap string DayBucket :=
  <["d1"%string := mkDay 3 1]> (<["d2"%string := mkDay 2 0]> ∅).

(** A history with one bucket [{completed: 1, missed: 0}] for each of the 31
    days of January 2026. *)
Definition january : gmap string DayBucket :=
  list_to_map
    ((λ d, (split_T_head (Host.toISOString (1767225600000 + d * Host.ms_per_day)),
            mkDay 1 0)) <$> seqZ 0 31).

End Sample.

Section App.

(** The built-in [Date] operations the code relies on; they depend on the
    host (its time zone and its date parser) and are taken as parameters.
    - [toISOString t]: [new Date(t).toISOString()];
    - [parseDate s]: the time value of [new Date(s)], [None] for an
      [Invalid Date];
    - [setDateBack t k]: the time value of [d] after
      [d.setDate(d.getDate() - k)] for [d = new Date(t)] (local calendar). *)
Variable toISOString : Z → string.
Variable parseDate : string → option Z.
Variable setDateBack : Z → Z → Z.

(** *** utils/dateUtils.js *)

Definition getTodayKey (now : Z) : string :=
  split_T_head (toISOString now).

Definition getYesterdayKey (now : Z) : string :=
  split_T_head (toISOString (setDateBack now 1)).

(** [deadlineDate < now]: a comparison with an [Invalid Date] is [false]. *)
Definition isOverdue (now : Z) (deadline : string) : bool :=
  match parseDate deadline with
  | Some d => d <? now
  | None => false
  end.

(** *** components/AIEngine.js *)

Definition checkOverdue (now : Z) (task : Task) : bool :=
  negb (task_completed task) &&
  match parseDate (task_deadline task) with
  | Some d => d <? now
  | None => false
  end.

(** *** context/TaskContext.jsx *)

(** [addTask] reads the clock for the identifier ([Date.now()]) and for
    [createdAt]; both readings are [now]. *)
Definition addTask (now : Z) (task : TaskInput) (a : App) : App :=
  let newTask := {| task_id := now;
                    task_title := input_title task;
                    task_deadline := input_deadline task;
                    task_completed := false;
                    task_completedAt := None;
                    task_createdAt := toISOString now;
                    task_notified := false |} in
  mkApp (tasks a ++ [newTask]) (streak a) (history a) (notifiedTasks a) (notices a).

(** The function [completeTask] maps over the list:
    [t.id === id ? { ...t, completed: true, completedAt: ... } : t]. *)
Definition complete_one (now : Z) (id : Z) (t : Task) : Task :=
  if task_id t =? id
  then {| task_id := task_id t;
          task_title := task_title t;
          task_deadline := task_deadline t;
          task_completed := true;
          task_completedAt := Some (toISOString now);
          task_createdAt := task_createdAt t;
          task_notified := task_notified t |}
  else t.

(** The updater [completeTask] passes to [setTasks]: when the first task with
    the identifier is not completed it asks for the notification and
    increments the streak; then, in every case, it maps over the list. *)
Definition completeTask (now : Z) (id : Z) (a : App) : App :=
  let prev := tasks a in
  let a1 :=
    match find_task (λ t, task_id t =? id) prev with
    | Some task =>
        if negb (task_completed task)
        then mkApp prev (streak a + 1) (history a) (notifiedTasks a)
                   (notices a ++ [CompletedNotice task])
        else a
    | None => a
    end in
  mkApp (map (complete_one now id) prev)
        (streak a1) (history a1) (notifiedTasks a1) (notices a1).

Definition deleteTask (id : Z) (a : App) : App :=
  mkApp (filter (λ t, task_id t ≠ id) (tasks a))
        (streak a) (history a) (notifiedTasks a) (notices a).

(** [t.id === id ? { ...t, notified: true } : t]. *)
Definition notify_one (id : Z) (t : Task) : Task :=
  if task_id t =? id
  then {| task_id := task_id t;
          task_title := task_title t;
          task_deadline := task_deadline t;
          task_completed := task_completed t;
          task_completedAt := task_completedAt t;
          task_createdAt := task_createdAt t;
          task_notified := true |}
  else t.

Definition markNotified (id : Z) (a : App) : App :=
  mkApp (map (notify_one id) (tasks a))
        (streak a) (history a) (notifiedTasks a) (notices a).

Definition clearAllTasks (a : App) : App :=
  mkApp [] 0 (history a) (notifiedTasks a) (notices a).

(** The task counts and the score derived from the task list. *)
Definition completedCount (l : list Task) : Z :=
  Z.of_nat (length (filter (λ t, task_completed t = true) l)).

Definition disciplineScore (l : list Task) : Z :=
  if (length l =? 0)%nat then 100
  else percent (completedCount l) (Z.of_nat (length l)).

(** *** context/HistoryContext.jsx *)

(** [history[key]?.completed || 0] and [history[key]?.missed || 0]. *)
Definition completed_at (h : gmap string DayBucket) (key : string) : Z :=
  match h !! key with
  | Some b => or_zero (day_completed b)
  | None => 0
  end.

Definition missed_at (h : gmap string DayBucket) (key : string) : Z :=
  match h !! key with
  | Some b => or_zero (day_missed b)
  | None => 0
  end.

Definition recordCompletion (now : Z) (prev : gmap string DayBucket)
  : gmap string DayBucket :=
  let today := getTodayKey now in
  <[today := {| day_completed := completed_at prev today + 1;
                day_missed := missed_at prev today |}]> prev.

Definition recordMissed (now : Z) (prev : gmap string DayBucket)
  : gmap string DayBucket :=
  let today := getTodayKey now in
  <[today := {| day_completed := completed_at prev today;
                day_missed := missed_at prev today + 1 |}]> prev.

Definition getTodayStats (now : Z) (h : gmap string DayBucket) : DayBucket :=
  let today := getTodayKey now in
  {| day_completed := completed_at h today; day_missed := missed_at h today |}.

Definition getYesterdayStats (now : Z) (h : gmap string DayBucket) : DayBucket :=
  let yesterday := getYesterdayKey now in
  {| day_completed := completed_at h yesterday;
     day_missed := missed_at h yesterday |}.

Definition getRecoveryDebt (now : Z) (h : gmap string DayBucket) : Z :=
  let yesterday := getYesterdayKey now in
  missed_at h yesterday.

(** [Object.values(history)]; the order of the entries plays no part in the
    sums taken over them. *)
Definition Object_values (h : gmap string DayBucket) : list DayBucket :=
  (map_to_list h).*2.

Definition add_day (acc day : DayBucket) : DayBucket :=
  {| day_completed := day_completed acc + or_zero (day_completed day);
     day_missed := day_missed acc + or_zero (day_missed day) |}.

Definition getOverallCompletionRate (h : gmap string DayBucket) : Z :=
  let entries := Object_values h in
  if (length entries =? 0)%nat then 100
  else
    let totals := fold_left add_day entries {| day_completed := 0; day_missed := 0 |} in
    let total := day_completed totals + day_missed totals in
    if 0 <? total then percent (day_completed totals) total else 100.

Definition clearHistory (h : gmap string DayBucket) : gmap string DayBucket := ∅.

(** The effect that persists the history after every change.  When
    [localStorage.setItem] throws a [QuotaExceededError] and the history has
    more than 30 keys, the history is replaced by its entries under the last
    30 keys in sorted order.  [Object.keys(history).sort()] orders strings by
    their code units, as [String.leb] does for the ASCII day keys. *)
Inductive StorageResult :=
| Stored
| StorageError (name : string).

Definition key_le (a b : string) : Prop := String.leb a b = true.

#[global] Instance key_le_dec (a b : string) : Decision (key_le a b).
Proof. unfold key_le. apply _. Defined.

(** [trimmedHistory[key] = history[key]], for each of the [keys]. *)
Definition trim_step (h trimmed : gmap string DayBucket) (key : string)
  : gmap string DayBucket :=
  match h !! key with
  | Some b => <[key := b]> trimmed
  | None => trimmed
  end.

Definition trim_history (h : gmap string DayBucket) (keys : list string)
  : gmap string DayBucket :=
  fold_left (trim_step h) keys ∅.

Definition persistHistory (r : StorageResult) (h : gmap string DayBucket)
  : gmap string DayBucket :=
  match r with
  | Stored => h
  | StorageError name =>
      if bool_decide (name = "QuotaExceededError"%string)
      then
        let keys := merge_sort key_le (map_to_list h).*1 in
        if (30 <? length keys)%nat
        then trim_history h (drop (length keys - 30) keys)
        else h
      else h
  end.

(** *** hooks/useAutoCheck.js *)

(** The body of [tasks.forEach(task => ...)]. *)
Definition checkTask {W : Type} (now : Z) (onTaskOverdue : option (Task → W → W))
    (m : Monitor W) (task : Task) : Monitor W :=
  if task_completed task then m
  else if set_has (seen m) (task_id task) then m
  else if isOverdue now (task_deadline task)
  then
    let seen' := set_add (seen m) (task_id task) in
    let shown' := shown m ++ [OverdueNotice task] in
    match onTaskOverdue with
    | Some callback => mkMonitor seen' shown' (callback task (world m))
    | None => mkMonitor seen' shown' (world m)
    end
  else m.

Definition checkOverdueTasks {W : Type} (now : Z) (l : list Task)
    (onTaskOverdue : option (Task → W → W)) (m : Monitor W) : Monitor W :=
  if (length l =? 0)%nat then m
  else fold_left (checkTask now onTaskOverdue) l m.

(** Repeated runs of the check (the run on mount, the runs after a change of
    the task list and the interval ticks), each with its clock reading and the
    task list of the render it belongs to. *)
Definition ticks {W : Type} (onTaskOverdue : option (Task → W → W))
    (runs : list (Z * list Task)) (m : Monitor W) : Monitor W :=
  fold_left (λ m run, checkOverdueTasks run.1 run.2 onTaskOverdue m) runs m.

(** *** App.jsx *)

(** The callback [AppContent] registers: [recordMissed()]. *)
Definition onTaskOverdue (now : Z) (overdueTask : Task)
    (h : gmap string DayBucket) : gmap string DayBucket :=
  recordMissed now h.

(** One run of the check inside the application. *)
Definition autoCheck (now : Z) (a : App) : App :=
  let m := checkOverdueTasks now (tasks a) (Some (onTaskOverdue now))
             (mkMonitor (notifiedTasks a) (notices a) (history a)) in
  mkApp (tasks a) (streak a) (world m) (seen m) (shown m).

(** *** components/TaskForm.jsx *)

(** [handleSubmit]: the form returns silently, without calling [addTask],
    when the title or the deadline field is the empty string. *)
Definition handleSubmit (now : Z) (title deadline : string) (a : App) : App :=
  if bool_decide (title = ""%string) || bool_decide (deadline = ""%string)
  then a
  else addTask now (mkInput title deadline) a.

(** ** More of the application *)

(** *** utils/dateUtils.js: day keys and time remaining *)


(** [Math.floor(x)]. *)
Definition Math_floor (x : Number) : Z := num x / den x.

(** The object [getTimeRemaining] returns; [None] in a number field is
    [NaN]. *)
Record TimeRemaining := mkRemaining {
  tr_overdue : bool;
  tr_hours : option Z;
  tr_minutes : option Z;
  tr_text : string;
}.

(** [getTimeRemaining(deadline)].  With an [Invalid Date] the difference is
    [NaN]: every comparison is false and both numbers are [NaN].  The
    difference of two time values and the remainder [%] are exact (for
    differences below [2^53] in magnitude); the divisions are rounded and then
    floored. *)
Definition getTimeRemaining (now : Z) (deadline : string) : TimeRemaining :=
  match parseDate deadline with
  | None => mkRemaining false None None "NaNm left"
  | Some d =>
      let diff := d - now in
      if diff <=? 0 then mkRemaining true (Some 0) (Some 0) "Overdue"
      else
        let hours := Math_floor (fdiv (of_int diff) (of_int (1000 * 60 * 60))) in
        let minutes :=
          Math_floor (fdiv (of_int (diff mod (1000 * 60 * 60))) (of_int (1000 * 60))) in
        let text :=
          if 24 <? hours then
            let days := Math_floor (fdiv (of_int hours) (of_int 24)) in
            (pretty days +:+ " day" +:+ (if (1 <? days)%Z then "s" else "") +:+ " left")%string
          else if 0 <? hours then
            (pretty hours +:+ "h " +:+ pretty minutes +:+ "m left")%string
          else (pretty minutes +:+ "m left")%string in
        mkRemaining false (Some hours) (Some minutes) text
  end.

(** *** context/TaskContext.jsx: derived lists and counts *)

Definition getOverdueTasks (now : Z) (l : list Task) : list Task :=
  filter (λ t, negb (task_completed t) && isOverdue now (task_deadline t) = true) l.

Definition pendingCount (now : Z) (l : list Task) : Z :=
  Z.of_nat (length (filter
    (λ t, negb (task_completed t) && negb (isOverdue now (task_deadline t)) = true) l)).

Definition overdueCount (now : Z) (l : list Task) : Z :=
  Z.of_nat (length (filter
    (λ t, negb (task_completed t) && isOverdue now (task_deadline t) = true) l)).

(** *** context/HistoryContext.jsx: statistics of the last days *)




(** *** hooks/useAutoCheck.js: what the hook returns *)

(** [forceCheck] runs the same check as the timer. *)
Definition forceCheck (now : Z) (a : App) : App := autoCheck now a.

(** [resetNotifications]: [notifiedTasksRef.current.clear()]. *)
Definition resetNotifications (a : App) : App :=
  mkApp (tasks a) (streak a) (history a) [] (notices a).

(** *** utils/notification.js *)

(** What the utilities see of the browser: whether [window] has a
    [Notification] constructor, the permission, and whether constructing a
    notification throws. *)
Inductive Permission := Granted | Denied | Undecided.

Record Browser := mkBrowser {
  has_Notification : bool;
  permission : Permission;
  constructor_throws : bool;
}.

(** The [options] argument of [showNotification]; the callers pass a body, a
    tag and, for overdue tasks, [requireInteraction]. *)
Record Options := mkOptions {
  opt_body : option string;
  opt_tag : option string;
  opt_requireInteraction : option bool;
}.

(** The merged object [{ icon, badge, vibrate, requireInteraction: false,
    ...options }] handed to the constructor. *)
Record NotificationOptions := mkNotificationOptions {
  n_icon : string;
  n_badge : string;
  n_vibrate : list Z;
  n_requireInteraction : bool;
  n_body : option string;
  n_tag : option string;
}.

Record Notification := mkNotification {
  n_title : string;
  n_options : NotificationOptions;
}.

Definition is_granted (p : Permission) : bool :=
  match p with Granted => true | _ => false end.

(** [showNotification(title, options)]: the notification shown, or [None] for
    [null]. *)
Definition showNotification (w : Browser) (title : string) (options : Options)
  : option Notification :=
  if negb (has_Notification w) then None
  else if negb (is_granted (permission w)) then None
  else
    let defaultOptions :=
      {| n_icon := "/icon.svg";
         n_badge := "/icon.svg";
         n_vibrate := [200; 100; 200];
         n_requireInteraction := default false (opt_requireInteraction options);
         n_body := opt_body options;
         n_tag := opt_tag options |} in
    if constructor_throws w then None
    else Some (mkNotification title defaultOptions).

Definition canShowNotifications (w : Browser) : bool :=
  has_Notification w && is_granted (permission w).

Definition getNotificationStatus (w : Browser) : string :=
  if negb (has_Notification w) then "unsupported"
  else match permission w with
       | Granted => "granted"
       | Denied => "denied"
       | Undecided => "default"
       end.

(** The double quote character of the message templates. *)
Definition dquote : string := String (ascii_of_nat 34) EmptyString.

(** The title literals of the two task notifications, and
    [new Date(deadline).toLocaleString()] as a function of the parsed
    deadline. *)
Variable overdueTitle completedTitle : string.
Variable toLocaleString : option Z → string.

Definition notifyOverdueTask (w : Browser) (task : Task) : option Notification :=
  showNotification w overdueTitle
    {| opt_body := Some (dquote +:+ task_title task +:+ dquote +:+ " was due at " +:+
                         toLocaleString (parseDate (task_deadline task)))%string;
       opt_tag := Some ("overdue-" +:+ pretty (task_id task))%string;
       opt_requireInteraction := Some true |}.

Definition notifyTaskCompleted (w : Browser) (task : Task) : option Notification :=
  showNotification w completedTitle
    {| opt_body := Some ("Great job completing " +:+ dquote +:+ task_title task +:+
                         dquote +:+ "!")%string;
       opt_tag := Some ("completed-" +:+ pretty (task_id task))%string;
       opt_requireInteraction := None |}.

(** What the browser displays for a log of notification calls. *)
Definition display (w : Browser) (n : Notice) : option Notification :=
  match n with
  | OverdueNotice t => notifyOverdueTask w t
  | CompletedNotice t => notifyTaskCompleted w t
  end.

(** The three emoji of the daily summary, and their text in the title. *)
Inductive Emoji := Fire | ThumbsUp | Muscle.

Variable emojiText : Emoji → string.

(** [notifyDailySummary(completed, total)], on integer counts. *)
Definition notifyDailySummary (w : Browser) (completed total : Z)
  : option Notification :=
  let percentage := if 0 <? total then percent completed total else 100 in
  let emoji := if 80 <=? percentage then Fire
               else if 50 <=? percentage then ThumbsUp
               else Muscle in
  showNotification w (emojiText emoji +:+ " Daily Summary")%string
    {| opt_body := Some ("You completed " +:+ pretty completed +:+ "/" +:+
                         pretty total +:+ " tasks (" +:+ pretty percentage +:+
                         "%)")%string;
       opt_tag := Some "daily-summary"%string;
       opt_requireInteraction := None |}.

(** *** components/AIEngine.js and the server's [/ai-warning] route *)

(** The JSON body of a reply of the server. *)
Record ReplyBody := mkReply {
  reply_message : option string;
  reply_error : option string;
}.

(** The route handler: the completion's text under [message], or status 500
    with [{ error: "AI failed" }] when the completion call throws ([None]). *)
Definition ai_warning (completion : option string) : Z * ReplyBody :=
  match completion with
  | Some content => (200, mkReply (Some content) None)
  | None => (500, mkReply None (Some "AI failed"%string))
  end.

(** What [fetch] and [response.json()] come to: they throw, or yield a
    body. *)
Inductive FetchResult :=
| FetchThrows
| FetchReplies (status : Z) (body : ReplyBody).

Definition fallback_messages (task : Task) : list string :=
  [ ("You missed " +:+ dquote +:+ task_title task +:+ dquote +:+
     ". Discipline is built through action.")%string;
    ("Late again? " +:+ dquote +:+ task_title task +:+ dquote +:+
     " deserved priority.")%string;
    ("No excuses. " +:+ dquote +:+ task_title task +:+ dquote +:+
     " was scheduled for a reason.")%string ].

(** [generateWarning(task)], given the outcome of the request and the value
    of [Math.random()]; [None] is [undefined]. *)
Definition generateWarning (r : FetchResult) (random : Number) (task : Task)
  : option string :=
  match r with
  | FetchReplies _ data => reply_message data
  | FetchThrows =>
      let messages := fallback_messages task in
      match Math_floor (fmul random (of_int (Z.of_nat (length messages)))) with
      | Zneg _ => None
      | i => messages !! Z.to_nat i
      end
  end.

(** ** Vocabulary of the specification *)

(** The mathematical rounding of [100 * c / n] to the nearest integer, a tie
    going up. *)
Definition round_half_up (c n : Z) : Z := (200 * c + n) / (2 * n).

(** [100 * c / n] lies exactly half-way between two integers. *)
Definition is_tie (c n : Z) : Prop := (200 * c + n) mod (2 * n) = 0.


(** The bucket of a day, or zeros when the day has none. *)
Definition bucket_or_zeros (h : gmap string DayBucket) (key : string) : DayBucket :=
  default {| day_completed := 0; day_missed := 0 |} (h !! key).

(** The data-model invariant of the history: counts are never negative. *)
Definition counts_nonneg (h : gmap string DayBucket) : Prop :=
  ∀ key b, h !! key = Some b → 0 ≤ day_completed b ∧ 0 ≤ day_missed b.

(** Every count of [h'] is at least the count [h] has for the same day. *)
Definition counts_le (h h' : gmap string DayBucket) : Prop :=
  ∀ key, day_completed (bucket_or_zeros h key) ≤ day_completed (bucket_or_zeros h' key) ∧
         day_missed (bucket_or_zeros h key) ≤ day_missed (bucket_or_zeros h' key).

(** The sums of the [completed] and of the [missed] counts of all buckets. *)
Definition total_completed (h : gmap string DayBucket) : Z :=
  foldr (λ b s, day_completed b + s) 0 (Object_values h).

Definition total_missed (h : gmap string DayBucket) : Z :=
  foldr (λ b s, day_missed b + s) 0 (Object_values h).

(** A callback that only records the task it is invoked with. *)
Definition log_call (task : Task) (calls : list Task) : list Task :=
  calls ++ [task].

(** The number of entries of a list that carry the identifier [id]. *)
Definition count_id (id : Z) (ids : list Z) : nat :=
  length (filter (λ x, x = id) ids).

(** What holds of a monitor that logs its callback invocations, from its
    creation on: the identifiers of the logged invocations, in order, are the
    entries of the notified set, no entry is repeated, and the notifications
    shown are those of the same tasks. *)
Definition monitor_inv (m : Monitor (list Task)) : Prop :=
  task_id <$> world m = seen m ∧
  NoDup (seen m) ∧
  shown m = OverdueNotice <$> world m.

(** The text [getTimeRemaining] builds from whole hours and minutes. *)
Definition remaining_text (hours minutes : Z) : string :=
  if 24 <? hours then
    (pretty (hours / 24) +:+ " day" +:+ (if (1 <? hours / 24)%Z then "s" else "") +:+
     " left")%string
  else if 0 <? hours then (pretty hours +:+ "h " +:+ pretty minutes +:+ "m left")%string
  else (pretty minutes +:+ "m left")%string.

(** The tasks a run of the check over [l] at [now] notifies, in order, when
    the notified set holds [seen] at its start. *)
Fixpoint newly_overdue (now : Z) (l : list Task) (seen : list Z) : list Task :=
  match l with
  | [] => []
  | t :: l =>
      if negb (task_completed t) && negb (set_has seen (task_id t)) &&
         isOverdue now (task_deadline t)
      then t :: newly_overdue now l (seen ++ [task_id t])
      else newly_overdue now l seen
  end.

(** Calling the callback, when there is one. *)
Definition call {W : Type} (cb : option (Task → W → W)) (w : W) (t : Task) : W :=
  match cb with
  | Some callback => callback t w
  | None => w
  end.

(** Successive runs of the check inside the application. *)
Definition autoChecks (nows : list Z) (a : App) : App :=
  fold_left (λ a now, autoCheck now a) nows a.

(** ** Properties *)

(** *** Rounding of JavaScript numbers *)

Lemma pow2_pos k : 0 < pow2 k.
Proof. unfold pow2. apply Z.pow_pos_nonneg; lia. Qed.

Lemma pow2_nonpos k : k ≤ 0 → pow2 k = 1.
Proof. intros H. unfold pow2. by rewrite Z.max_l by lia. Qed.

Lemma pow2_succ k : 0 ≤ k → pow2 (k + 1) = 2 * pow2 k.
Proof.
  intros H. unfold pow2. rewrite !Z.max_r by lia.
  rewrite Z.pow_add_r by lia. lia.
Qed.

(** Lowering the exponent by one doubles the scaled fraction. *)
Lemma pow2_step k :
  (pow2 (- (k - 1)) = pow2 (- k) ∧ pow2 k = 2 * pow2 (k - 1)) ∨
  (pow2 (- (k - 1)) = 2 * pow2 (- k) ∧ pow2 (k - 1) = pow2 k).
Proof.
  destruct (Z_le_gt_dec k 0) as [Hk | Hk].
  - right. split.
    + replace (- (k - 1)) with (- k + 1) by lia. apply pow2_succ. lia.
    + by rewrite !pow2_nonpos by lia.
  - left. split.
    + by rewrite !pow2_nonpos by lia.
    + replace k with (k - 1 + 1) at 1 by lia. apply pow2_succ. lia.
Qed.

Lemma pow2_balance a b k :
  0 ≤ a → 0 ≤ b → k = a - b → 2 ^ a * pow2 (- k) = 2 ^ b * pow2 k.
Proof.
  intros Ha Hb ->. unfold pow2.
  destruct (Z_le_gt_dec (a - b) 0) as [Hk | Hk].
  - rewrite (Z.max_l 0 (a - b)), (Z.max_r 0 (- (a - b))) by lia.
    rewrite <- !Z.pow_add_r by lia. f_equal. lia.
  - rewrite (Z.max_r 0 (a - b)), (Z.max_l 0 (- (a - b))) by lia.
    rewrite <- !Z.pow_add_r by lia. f_equal. lia.
Qed.

Lemma binade_spec p q :
  0 < p → 0 < q →
  let e := binade p q in
  2 ^ 52 * (q * pow2 e) ≤ p * pow2 (- e) < 2 ^ 53 * (q * pow2 e).
Proof.
  intros Hp Hq. unfold binade.
  set (e0 := Z.log2 p - Z.log2 q - 52).
  pose proof (Z.log2_spec p Hp) as [Hp1 Hp2].
  pose proof (Z.log2_spec q Hq) as [Hq1 Hq2].
  pose proof (Z.log2_nonneg p) as Hlp.
  pose proof (Z.log2_nonneg q) as Hlq.
  rewrite Z.pow_succ_r in Hp2, Hq2 by done.
  assert (Hbal : 2 ^ Z.log2 p * pow2 (- e0) = 2 ^ (Z.log2 q + 52) * pow2 e0).
  { apply pow2_balance; lia. }
  rewrite Z.pow_add_r in Hbal by lia.
  pose proof (pow2_pos e0) as He0. pose proof (pow2_pos (- e0)) as Hne0.
  set (lp := 2 ^ Z.log2 p) in *. set (lq := 2 ^ Z.log2 q) in *.
  set (u := pow2 e0) in *. set (v := pow2 (- e0)) in *.
  assert (Hlo : 2 ^ 52 * (q * u) < 2 * (p * v)) by nia.
  assert (Hhi : p * v < 2 ^ 53 * (q * u)) by nia.
  destruct (Z.ltb_spec (p * v) (2 ^ 52 * (q * u))) as [Hlt | Hge]; simpl.
  - destruct (pow2_step e0) as [[E1 E2] | [E1 E2]]; fold u v in E1, E2.
    + rewrite E1. nia.
    + rewrite E1, E2. nia.
  - lia.
Qed.

Lemma round_nearest_even_spec a b :
  0 < b →
  let m := round_nearest_even a b in
  - b ≤ 2 * (m * b - a) ≤ b.
Proof.
  intros Hb. unfold round_nearest_even.
  pose proof (Z.div_mod a b ltac:(lia)) as Hdiv.
  pose proof (Z.mod_pos_bound a b Hb) as Hmod.
  set (f := a / b) in *. set (r := a mod b) in *.
  destruct (Z.compare_spec (2 * r) b) as [Heq | Hlt | Hgt]; simpl.
  - destruct (Z.even f); nia.
  - nia.
  - nia.
Qed.

Lemma half_step_relative A B C :
  2 ^ 52 * A ≤ B → - A ≤ 2 * (C - B) ≤ A →
  (2 ^ 53 - 1) * B ≤ 2 ^ 53 * C ≤ (2 ^ 53 + 1) * B.
Proof. lia. Qed.

(** The relative error of one rounding is at most [2^-53]. *)
Lemma round53_error p q :
  0 < p → 0 < q →
  let x := round53 p q in
  0 < den x ∧
  (2 ^ 53 - 1) * (p * den x) ≤ 2 ^ 53 * (num x * q) ≤ (2 ^ 53 + 1) * (p * den x).
Proof.
  intros Hp Hq. unfold round53.
  destruct (Z.eqb_spec p 0) as [-> | _]; [lia |].
  pose proof (binade_spec p q Hp Hq) as Hbin. simpl in Hbin.
  set (e := binade p q) in *. unfold num, den. simpl.
  pose proof (pow2_pos e) as He. pose proof (pow2_pos (- e)) as Hne.
  set (u := pow2 e) in *. set (v := pow2 (- e)) in *.
  pose proof (round_nearest_even_spec (p * v) (q * u) ltac:(nia)) as Hm.
  simpl in Hm. set (m := round_nearest_even (p * v) (q * u)) in *.
  split; [done |].
  replace (m * u * q) with (m * (q * u)) by ring.
  apply (half_step_relative (q * u)); [apply Hbin | exact Hm].
Qed.

Lemma fdiv_of_int c n : fdiv (of_int c) (of_int n) = round53 c n.
Proof.
  unfold fdiv, of_int, num, den. simpl.
  change (pow2 (- 0)) with 1. change (pow2 0) with 1. f_equal; lia.
Qed.

Lemma fmul_of_int x k : fmul x (of_int k) = round53 (num x * k) (den x).
Proof.
  unfold fmul, of_int. unfold num at 2, den at 2. simpl.
  change (pow2 (- 0)) with 1. change (pow2 0) with 1. f_equal; lia.
Qed.

(** Two relative errors in a row. *)
Lemma chain_two_errors P c n N1 D1 N2 D2 :
  1 < P → 0 < c → 0 < n → 0 < D1 → 0 < D2 →
  (P - 1) * (c * D1) ≤ P * (N1 * n) ≤ (P + 1) * (c * D1) →
  (P - 1) * (N1 * 100 * D2) ≤ P * (N2 * D1) ≤ (P + 1) * (N1 * 100 * D2) →
  (P - 1) * (P - 1) * (100 * c * D2) ≤ P * P * (n * N2) ≤
    (P + 1) * (P + 1) * (100 * c * D2).
Proof.
  intros HP Hc Hn HD1 HD2 [H1l H1u] [H2l H2u].
  assert (0 < (P - 1) * (c * D1)) by (apply Z.mul_pos_pos; nia).
  assert (HN1 : 0 < N1) by nia.
  split.
  - apply (Z.mul_le_mono_pos_r _ _ D1); [done |].
    transitivity ((P - 1) * 100 * D2 * (P * (N1 * n))).
    + replace ((P - 1) * (P - 1) * (100 * c * D2) * D1)
        with ((P - 1) * 100 * D2 * ((P - 1) * (c * D1))) by ring.
      apply Z.mul_le_mono_nonneg_l; [nia | done].
    + replace ((P - 1) * 100 * D2 * (P * (N1 * n)))
        with (P * n * ((P - 1) * (N1 * 100 * D2))) by ring.
      replace (P * P * (n * N2) * D1) with (P * n * (P * (N2 * D1))) by ring.
      apply Z.mul_le_mono_nonneg_l; [nia | done].
  - apply (Z.mul_le_mono_pos_r _ _ D1); [done |].
    transitivity ((P + 1) * 100 * D2 * (P * (N1 * n))).
    + replace (P * P * (n * N2) * D1) with (P * n * (P * (N2 * D1))) by ring.
      replace ((P + 1) * 100 * D2 * (P * (N1 * n)))
        with (P * n * ((P + 1) * (N1 * 100 * D2))) by ring.
      apply Z.mul_le_mono_nonneg_l; [nia | done].
    + replace ((P + 1) * (P + 1) * (100 * c * D2) * D1)
        with ((P + 1) * 100 * D2 * ((P + 1) * (c * D1))) by ring.
      apply Z.mul_le_mono_nonneg_l; [nia | done].
Qed.

Lemma scaled_quotient_error c n :
  0 < c → 0 < n →
  let y := fmul (fdiv (of_int c) (of_int n)) (of_int 100) in
  0 < den y ∧
  (2 ^ 53 - 1) * (2 ^ 53 - 1) * (100 * c * den y) ≤ 2 ^ 53 * 2 ^ 53 * (n * num y) ≤
    (2 ^ 53 + 1) * (2 ^ 53 + 1) * (100 * c * den y).
Proof.
  intros Hc Hn. rewrite fdiv_of_int, fmul_of_int.
  destruct (round53_error c n Hc Hn) as [HD1 H1]. simpl in HD1, H1.
  set (x := round53 c n) in *.
  assert (0 < (2 ^ 53 - 1) * (c * den x)) by (apply Z.mul_pos_pos; nia).
  assert (HN1 : 0 < num x) by nia.
  destruct (round53_error (num x * 100) (den x) ltac:(lia) HD1) as [HD2 H2].
  simpl in HD2, H2. set (y := round53 (num x * 100) (den x)) in *. simpl.
  split; [done |].
  apply (chain_two_errors _ c n (num x) (den x)); try done.
Qed.

Lemma above_arith Q R n N D c j T :
  0 ≤ Q → 0 ≤ R → 0 < n → 0 < D →
  Q * (n * N) ≤ R * (100 * c * D) →
  (2 * j + 1) * D ≤ 2 * N →
  200 * c + 1 ≤ T → T = (2 * j + 1) * n →
  Q * T ≤ R * (T - 1).
Proof.
  intros HQ HR Hn HD Hup Hcontra Hc ->.
  apply (Z.mul_le_mono_pos_r _ _ D); [done |].
  transitivity (Q * n * (2 * N)).
  - replace (Q * ((2 * j + 1) * n) * D) with (Q * n * ((2 * j + 1) * D)) by ring.
    apply Z.mul_le_mono_nonneg_l; [nia | done].
  - transitivity (R * (200 * c) * D).
    + replace (Q * n * (2 * N)) with (2 * (Q * (n * N))) by ring.
      replace (R * (200 * c) * D) with (2 * (R * (100 * c * D))) by ring.
      lia.
    + apply Z.mul_le_mono_nonneg_r; [lia |].
      apply Z.mul_le_mono_nonneg_l; [done | lia].
Qed.

Lemma below_arith Q S n N D c j T :
  0 ≤ Q → 0 ≤ S → 0 < n → 0 < D →
  S * (100 * c * D) ≤ Q * (n * N) →
  2 * N ≤ (2 * j - 1) * D →
  T + 1 ≤ 200 * c → T = (2 * j - 1) * n →
  S * (T + 1) ≤ Q * T.
Proof.
  intros HQ HS Hn HD Hlow Hcontra Hc ->.
  apply (Z.mul_le_mono_pos_r _ _ D); [done |].
  transitivity (S * (200 * c) * D).
  - apply Z.mul_le_mono_nonneg_r; [lia |].
    apply Z.mul_le_mono_nonneg_l; [done | lia].
  - transitivity (Q * n * (2 * N)).
    + replace (Q * n * (2 * N)) with (2 * (Q * (n * N))) by ring.
      replace (S * (200 * c) * D) with (2 * (S * (100 * c * D))) by ring.
      lia.
    + replace (Q * ((2 * j - 1) * n) * D) with (Q * n * ((2 * j - 1) * D)) by ring.
      apply Z.mul_le_mono_nonneg_l; [nia | done].
Qed.

Lemma percent_nonneg c n : 0 ≤ c → 0 < n → 0 ≤ percent c n.
Proof.
  intros Hc Hn. unfold percent, Math_round.
  set (y := fmul (fdiv (of_int c) (of_int n)) (of_int 100)).
  assert (0 < den y ∧ 0 ≤ num y) as [HD HN].
  { destruct (Z.eq_dec c 0) as [-> | Hc0].
    - subst y. rewrite fdiv_of_int, fmul_of_int. simpl. done.
    - destruct (scaled_quotient_error c n ltac:(lia) Hn) as [HD [Hlow _]].
      fold y in HD, Hlow. split; [done |].
      assert (0 ≤ (2 ^ 53 - 1) * (2 ^ 53 - 1) * (100 * c * den y)) by nia.
      nia. }
  apply Z.div_pos; lia.
Qed.

Lemma percent_at_most c n j :
  0 < c → 0 < n < 2 ^ 44 → 0 ≤ j ≤ 100 →
  200 * c + n < 2 * n * (j + 1) →
  percent c n ≤ j.
Proof.
  intros Hc Hn Hj Hlt. unfold percent, Math_round.
  destruct (scaled_quotient_error c n Hc ltac:(lia)) as [HD [_ Hup]].
  set (y := fmul (fdiv (of_int c) (of_int n)) (of_int 100)) in *.
  apply Z.lt_succ_r, Z.div_lt_upper_bound; [lia |].
  destruct (Z_lt_le_dec (2 * num y) ((2 * j + 1) * den y)) as [Hok | Hcontra]; [lia |].
  exfalso.
  pose proof (above_arith (2 ^ 53 * 2 ^ 53) ((2 ^ 53 + 1) * (2 ^ 53 + 1))
                n (num y) (den y) c j ((2 * j + 1) * n)
                ltac:(lia) ltac:(lia) ltac:(lia) HD Hup Hcontra ltac:(lia) eq_refl) as H.
  assert ((2 * j + 1) * n ≤ 201 * 2 ^ 44) by nia.
  lia.
Qed.

Lemma percent_at_least c n j :
  0 < c → 0 < n < 2 ^ 44 → 1 ≤ j ≤ 100 →
  (2 * j - 1) * n + 1 ≤ 200 * c →
  j ≤ percent c n.
Proof.
  intros Hc Hn Hj Hge. unfold percent, Math_round.
  destruct (scaled_quotient_error c n Hc ltac:(lia)) as [HD [Hlow _]].
  set (y := fmul (fdiv (of_int c) (of_int n)) (of_int 100)) in *.
  apply Z.div_le_lower_bound; [lia |].
  destruct (Z_lt_le_dec ((2 * j - 1) * den y) (2 * num y)) as [Hok | Hcontra]; [lia |].
  exfalso.
  pose proof (below_arith (2 ^ 53 * 2 ^ 53) ((2 ^ 53 - 1) * (2 ^ 53 - 1))
                n (num y) (den y) c j ((2 * j - 1) * n)
                ltac:(lia) ltac:(lia) ltac:(lia) HD Hlow Hcontra ltac:(lia) eq_refl) as H.
  assert ((2 * j - 1) * n ≤ 199 * 2 ^ 44) by nia.
  lia.
Qed.

(** [percent c n] is the mathematical rounding of [100 * c / n], except that
    an exact tie may go down instead of up. *)
Lemma percent_spec c n :
  0 ≤ c ≤ n → 0 < n < 2 ^ 44 →
  0 ≤ percent c n ≤ 100 ∧
  (percent c n = round_half_up c n ∨
   is_tie c n ∧ percent c n = round_half_up c n - 1).
Proof.
  intros Hc Hn.
  pose proof (percent_nonneg c n ltac:(lia) ltac:(lia)) as H0.
  destruct (Z.eq_dec c 0) as [-> | Hc0].
  { assert (percent 0 n = 0) as ->.
    { unfold percent. rewrite fdiv_of_int, fmul_of_int. reflexivity. }
    unfold round_half_up. rewrite Z.div_small by lia. lia. }
  unfold round_half_up, is_tie.
  pose proof (Z.div_mod (200 * c + n) (2 * n) ltac:(lia)) as Hdiv.
  pose proof (Z.mod_pos_bound (200 * c + n) (2 * n) ltac:(lia)) as Hmod.
  set (k := (200 * c + n) / (2 * n)) in *.
  set (r := (200 * c + n) mod (2 * n)) in *.
  assert (Hk : 1 ≤ k + 1 ≤ 101) by nia.
  assert (Hk0 : r = 0 → 1 ≤ k) by nia.
  pose proof (percent_at_most c n k ltac:(lia) Hn ltac:(lia) ltac:(nia)) as Hup.
  split; [lia |].
  destruct (Z.eq_dec r 0) as [Hr | Hr].
  - destruct (Z.eq_dec k 1) as [Hk1 | Hk1]; [lia |].
    pose proof (percent_at_least c n (k - 1) ltac:(lia) Hn ltac:(lia) ltac:(nia)).
    lia.
  - destruct (Z.eq_dec k 0) as [Hk1 | Hk1]; [lia |].
    pose proof (percent_at_least c n k ltac:(lia) Hn ltac:(lia) ltac:(nia)).
    lia.
Qed.

(** *** The overdue predicate *)

Lemma isOverdue_spec now deadline :
  isOverdue now deadline = true ↔ ∃ d, parseDate deadline = Some d ∧ d < now.
Proof.
  unfold isOverdue. destruct (parseDate deadline) as [d|]; split.
  - intros H. exists d. split; [done | lia].
  - intros (d' & [= <-] & H). lia.
  - done.
  - intros (d' & [=] & _).
Qed.

(** C6. A task is overdue at [now] exactly when it is not completed and its
    deadline is a point in time strictly before [now]; a completed task is
    never overdue, whatever its deadline; and the predicate depends on the
    task only through its [completed] flag and its deadline.  It is the
    conjunction [!completed && isOverdue(deadline)] the task store filters
    with. *)
Theorem checkOverdue_iff_pending_and_past (now : Z) (task : Task) :
  (checkOverdue now task = true ↔
     task_completed task = false ∧
     ∃ d, parseDate (task_deadline task) = Some d ∧ d < now) ∧
  (task_completed task = true → checkOverdue now task = false) ∧
  (∀ task', task_completed task' = task_completed task →
            task_deadline task' = task_deadline task →
            checkOverdue now task' = checkOverdue now task) ∧
  checkOverdue now task =
    negb (task_completed task) && isOverdue now (task_deadline task).
Proof.
  assert (Hfold : checkOverdue now task =
            negb (task_completed task) && isOverdue now (task_deadline task))
    by reflexivity.
  split; [split | split; [| split]].
  - rewrite Hfold. intros [Hc Hd]%andb_prop. split.
    + by destruct (task_completed task).
    + by apply isOverdue_spec.
  - intros [Hc Hd]. rewrite Hfold, Hc. simpl. by apply isOverdue_spec.
  - intros Hc. rewrite Hfold, Hc. done.
  - intros task' Hc Hd. unfold checkOverdue. by rewrite Hc, Hd.
  - exact Hfold.
Qed.

(** *** The task store *)

Lemma or_zero_id x : or_zero x = x.
Proof. unfold or_zero. destruct (Z.eqb_spec x 0); congruence. Qed.

(** C4 (as the code has it). [addTask] validates nothing and cannot fail: for
    every title and deadline it appends one task that carries them, with the
    clock reading as identifier, [completed] and [notified] false, and it
    leaves everything else alone.  The only check on the input is made by the
    form: [handleSubmit] returns without adding anything (and without an
    error) when the title or the deadline string is empty, and calls
    [addTask] otherwise. *)
Theorem addTask_appends_unvalidated (now : Z) (title deadline : string) (a : App) :
  (∃ t, tasks (addTask now (mkInput title deadline) a) = tasks a ++ [t] ∧
        task_id t = now ∧ task_title t = title ∧ task_deadline t = deadline ∧
        task_completed t = false ∧ task_completedAt t = None ∧
        task_notified t = false) ∧
  streak (addTask now (mkInput title deadline) a) = streak a ∧
  history (addTask now (mkInput title deadline) a) = history a ∧
  notices (addTask now (mkInput title deadline) a) = notices a ∧
  (title = ""%string ∨ deadline = ""%string →
     handleSubmit now title deadline a = a) ∧
  (title ≠ ""%string → deadline ≠ ""%string →
     handleSubmit now title deadline a = addTask now (mkInput title deadline) a).
Proof.
  split; [| split; [| split; [| split; [| split]]]]; try reflexivity.
  - eexists. repeat split; reflexivity.
  - unfold handleSubmit. intros [-> | ->].
    + done.
    + by rewrite orb_true_r.
  - intros Ht Hd. unfold handleSubmit.
    rewrite !bool_decide_eq_false_2 by done. done.
Qed.


Lemma complete_one_id now id t : task_id (complete_one now id t) = task_id t.
Proof. unfold complete_one. by destruct (task_id t =? id). Qed.

Lemma complete_one_completed now id t :
  task_completed (complete_one now id t) =
    if task_id t =? id then true else task_completed t.
Proof. unfold complete_one. by destruct (task_id t =? id). Qed.

Lemma notify_one_id id t : task_id (notify_one id t) = task_id t.
Proof. unfold notify_one. by destruct (task_id t =? id). Qed.

Lemma notify_one_completed id t :
  task_completed (notify_one id t) = task_completed t.
Proof. unfold notify_one. by destruct (task_id t =? id). Qed.

Lemma ids_map (f : Task → Task) (l : list Task) :
  (∀ t, task_id (f t) = task_id t) → task_id <$> map f l = task_id <$> l.
Proof.
  intros Hf. induction l as [| t l IH]; [done |].
  cbn. f_equal; [apply Hf | exact IH].
Qed.

(** Identifiers are unique in the list the store starts from, and every
    action keeps them unique, [addTask] as long as the clock reading it uses
    as identifier is not in use. *)
Lemma unique_ids_preserved (a : App) :
  NoDup (task_id <$> []) ∧
  (NoDup (task_id <$> tasks a) →
     (∀ now inp, now ∉ task_id <$> tasks a →
                 NoDup (task_id <$> tasks (addTask now inp a))) ∧
     (∀ now id, NoDup (task_id <$> tasks (completeTask now id a))) ∧
     (∀ id, NoDup (task_id <$> tasks (deleteTask id a))) ∧
     (∀ id, NoDup (task_id <$> tasks (markNotified id a))) ∧
     NoDup (task_id <$> tasks (clearAllTasks a))).
Proof.
  split; [constructor |].
  intros Hnd. split; [| split; [| split; [| split]]].
  - intros now inp Hfresh. simpl. rewrite fmap_app. simpl.
    apply NoDup_app. split; [done | split].
    + intros x Hx ->%list_elem_of_singleton. done.
    + apply NoDup_singleton.
  - intros now id. simpl.
    rewrite ids_map; [done | apply complete_one_id].
  - intros id. simpl. eapply sublist_NoDup; [exact Hnd |].
    apply fmap_sublist, sublist_filter.
  - intros id. simpl.
    rewrite ids_map; [done | apply notify_one_id].
  - constructor.
Qed.

Lemma find_task_first id l t :
  find_task (λ t, task_id t =? id) l = Some t → t ∈ l ∧ task_id t = id.
Proof.
  unfold find_task. intros [Hin Hid]%find_some. split.
  - by apply list_elem_of_In.
  - lia.
Qed.




(** *** The history store *)

Lemma completed_at_spec h key :
  completed_at h key = day_completed (bucket_or_zeros h key).
Proof.
  unfold completed_at, bucket_or_zeros.
  destruct (h !! key); simpl; [apply or_zero_id | done].
Qed.

Lemma missed_at_spec h key :
  missed_at h key = day_missed (bucket_or_zeros h key).
Proof.
  unfold missed_at, bucket_or_zeros.
  destruct (h !! key); simpl; [apply or_zero_id | done].
Qed.

(** The recovery debt is the [missed] count of the bucket stored under the
    key [getYesterdayKey] returns, and 0 when there is no such bucket. *)
Lemma getRecoveryDebt_reads_yesterday_key (now : Z) (h : gmap string DayBucket) :
  getRecoveryDebt now h =
    match h !! getYesterdayKey now with
    | Some bucket => day_missed bucket
    | None => 0
    end ∧
  getRecoveryDebt now h = day_missed (getYesterdayStats now h).
Proof.
  split; [| reflexivity].
  unfold getRecoveryDebt, missed_at.
  destruct (h !! getYesterdayKey now); [apply or_zero_id | done].
Qed.

(** When [setDate] takes the clock back by exactly 24 hours, as the comment
    on [getYesterdayKey] says it does, yesterday's key is the key
    [getTodayKey] returned 24 hours earlier: the debt is the [missed] count
    [getTodayStats] reported then, and a miss recorded then adds 1 to it. *)
Lemma getRecoveryDebt_after_24_hours (now : Z) (h : gmap string DayBucket) :
  setDateBack now 1 = now - 86400000 →
  getYesterdayKey now = getTodayKey (now - 86400000) ∧
  getRecoveryDebt now h = day_missed (getTodayStats (now - 86400000) h) ∧
  getRecoveryDebt now (recordMissed (now - 86400000) h) = getRecoveryDebt now h + 1.
Proof.
  intros Hday.
  assert (Hkey : getYesterdayKey now = getTodayKey (now - 86400000))
    by (unfold getYesterdayKey, getTodayKey; by rewrite Hday).
  split; [exact Hkey |]. unfold getRecoveryDebt. rewrite Hkey.
  split; [reflexivity |].
  unfold recordMissed, missed_at at 1. rewrite lookup_insert_eq. simpl.
  apply or_zero_id.
Qed.

Lemma counts_nonneg_bucket h key :
  counts_nonneg h →
  0 ≤ day_completed (bucket_or_zeros h key) ∧ 0 ≤ day_missed (bucket_or_zeros h key).
Proof.
  intros Hwf. unfold bucket_or_zeros.
  destruct (h !! key) as [b |] eqn:Hb; simpl; [by eapply Hwf | lia].
Qed.

Lemma counts_nonneg_insert h key b :
  counts_nonneg h → 0 ≤ day_completed b → 0 ≤ day_missed b →
  counts_nonneg (<[key := b]> h).
Proof.
  intros Hwf Hc Hm key' b'. rewrite lookup_insert. case_decide.
  - intros [= <-]. done.
  - apply Hwf.
Qed.

Lemma counts_le_insert h key b :
  day_completed (bucket_or_zeros h key) ≤ day_completed b →
  day_missed (bucket_or_zeros h key) ≤ day_missed b →
  counts_le h (<[key := b]> h).
Proof.
  intros Hc Hm key'. unfold bucket_or_zeros at 2 4.
  rewrite lookup_insert. case_decide as Hk.
  - subst key'. simpl. done.
  - fold (bucket_or_zeros h key'). lia.
Qed.

Lemma trim_history_lookup (h acc : gmap string DayBucket) keys key b :
  fold_left (trim_step h) keys acc !! key = Some b →
  acc !! key = Some b ∨ h !! key = Some b.
Proof.
  revert acc. induction keys as [| k keys IH]; intros acc; simpl; [by left |].
  intros [H | H]%IH; [| by right].
  unfold trim_step in H.
  destruct (h !! k) as [bk |] eqn:Hk; [| by left].
  rewrite lookup_insert in H. case_decide; [| by left].
  right. congruence.
Qed.

Lemma trim_history_subseteq (h : gmap string DayBucket) keys :
  trim_history h keys ⊆ h.
Proof.
  apply map_subseteq_spec. intros key b H.
  apply trim_history_lookup in H as [H | H]; [| done].
  by rewrite lookup_empty in H.
Qed.

Lemma trim_history_size (h acc : gmap string DayBucket) keys :
  NoDup keys →
  (∀ key, key ∈ keys → is_Some (h !! key) ∧ acc !! key = None) →
  size (fold_left (trim_step h) keys acc) = (size acc + length keys)%nat.
Proof.
  intros Hnd. revert acc.
  induction Hnd as [| k keys Hk Hnd IH]; intros acc Hkeys; simpl; [lia |].
  destruct (Hkeys k) as [[b Hb] Hacc]; [by left |].
  unfold trim_step at 2. rewrite Hb, IH.
  - rewrite map_size_insert_None by done. lia.
  - intros key Hin. destruct (Hkeys key) as [Hs Hn]; [by right |].
    split; [done |]. rewrite lookup_insert_ne; [done |].
    intros ->. done.
Qed.

Lemma string_compare_trans_le (a b c : string) :
  String.compare a b ≠ Gt → String.compare b c ≠ Gt → String.compare a c ≠ Gt.
Proof.
  revert b c. induction a as [| x a IH]; intros [| y b] [| z c]; simpl; try done.
  unfold Ascii.compare.
  destruct (N.compare_spec (N_of_ascii x) (N_of_ascii y)) as [Hxy | Hxy | Hxy];
    destruct (N.compare_spec (N_of_ascii y) (N_of_ascii z)) as [Hyz | Hyz | Hyz];
    try done.
  - rewrite Hxy, Hyz, N.compare_refl. apply IH.
  - intros _ _. rewrite Hxy. by apply N.compare_lt_iff in Hyz as ->.
  - intros _ _. rewrite <- Hyz. by apply N.compare_lt_iff in Hxy as ->.
  - intros _ _. assert (N_of_ascii x < N_of_ascii z)%N as Hxz by lia.
    by apply N.compare_lt_iff in Hxz as ->.
Qed.

#[local] Instance key_le_trans : Transitive key_le.
Proof.
  intros a b c. unfold key_le, String.leb.
  pose proof (string_compare_trans_le a b c) as H.
  destruct (String.compare a b), (String.compare b c), (String.compare a c);
    try done; intros _ _; exfalso; by apply H.
Qed.

#[local] Instance key_le_total : Total key_le.
Proof. intros a b. apply String.leb_total. Qed.

Lemma trim_history_keeps (h acc : gmap string DayBucket) keys key b :
  acc !! key = Some b → h !! key = Some b →
  fold_left (trim_step h) keys acc !! key = Some b.
Proof.
  revert acc. induction keys as [| k keys IH]; intros acc Hacc Hh; simpl; [done |].
  apply IH; [| done]. unfold trim_step.
  destruct (h !! k) as [bk |] eqn:Hk; [| done].
  rewrite lookup_insert. case_decide; [congruence | done].
Qed.

Lemma trim_history_takes (h acc : gmap string DayBucket) keys key b :
  key ∈ keys → h !! key = Some b →
  fold_left (trim_step h) keys acc !! key = Some b.
Proof.
  revert acc. induction keys as [| k keys IH]; intros acc Hin Hh.
  { by apply elem_of_nil in Hin. }
  simpl. apply elem_of_cons in Hin as [<- | Hin]; [| by apply IH].
  apply trim_history_keeps; [| done].
  unfold trim_step. rewrite Hh. apply lookup_insert_eq.
Qed.

Lemma trim_history_from (h acc : gmap string DayBucket) keys key b :
  fold_left (trim_step h) keys acc !! key = Some b →
  acc !! key = Some b ∨ key ∈ keys ∧ h !! key = Some b.
Proof.
  revert acc. induction keys as [| k keys IH]; intros acc; simpl; [by left |].
  intros [H | [Hin Hh]]%IH.
  - unfold trim_step in H. destruct (h !! k) as [bk |] eqn:Hk; [| by left].
    rewrite lookup_insert in H. case_decide as Heq; [| by left].
    right. split; [subst; by left | congruence].
  - right. split; [by right | done].
Qed.

Lemma sorted_keys_spec (h : gmap string DayBucket) :
  let keys := merge_sort key_le (map_to_list h).*1 in
  NoDup keys ∧ length keys = size h ∧
  (∀ key, key ∈ keys ↔ is_Some (h !! key)) ∧
  StronglySorted key_le keys.
Proof.
  intros keys.
  assert (Hperm : keys ≡ₚ (map_to_list h).*1) by apply merge_sort_Permutation.
  split; [| split; [| split]].
  - rewrite Hperm. apply NoDup_fst_map_to_list.
  - rewrite Hperm, length_fmap. apply length_map_to_list.
  - intros key. rewrite Hperm. split.
    + intros ((k & b) & -> & H)%list_elem_of_fmap.
      apply elem_of_map_to_list in H. by exists b.
    + intros [b Hb]. apply list_elem_of_fmap. exists (key, b).
      split; [done | by apply elem_of_map_to_list].
  - apply StronglySorted_merge_sort; apply _.
Qed.

Lemma persistHistory_subseteq r (h : gmap string DayBucket) : persistHistory r h ⊆ h.
Proof.
  unfold persistHistory. destruct r as [| name]; [done |].
  case_bool_decide; [| done].
  destruct (30 <? _)%nat; [apply trim_history_subseteq | done].
Qed.

(** C9 (as the code has it). On a history whose counts are non-negative,
    [recordCompletion] (resp. [recordMissed]) adds exactly 1 to the
    [completed] (resp. [missed]) count of today's bucket, keeps the other
    count of that bucket (0 when the bucket is new), leaves every other
    bucket unchanged, keeps all counts non-negative and lowers none;
    [clearHistory] empties the history.  Buckets are also dropped by the
    effect that persists the history: it returns the history unchanged,
    except when the write fails with a [QuotaExceededError] on a history of
    more than 30 buckets, which it cuts down to 30 of its buckets, each with
    its counts unchanged: the ones whose keys come last in the order of the
    keys, every dropped key sorting before every kept one. *)
Theorem history_counts_grow_until_dropped
    (now : Z) (h : gmap string DayBucket) (Hwf : counts_nonneg h) :
  let today := getTodayKey now in
  (recordCompletion now h !! today =
     Some {| day_completed := day_completed (bucket_or_zeros h today) + 1;
             day_missed := day_missed (bucket_or_zeros h today) |} ∧
   (∀ key, key ≠ today → recordCompletion now h !! key = h !! key) ∧
   counts_nonneg (recordCompletion now h) ∧
   counts_le h (recordCompletion now h)) ∧
  (recordMissed now h !! today =
     Some {| day_completed := day_completed (bucket_or_zeros h today);
             day_missed := day_missed (bucket_or_zeros h today) + 1 |} ∧
   (∀ key, key ≠ today → recordMissed now h !! key = h !! key) ∧
   counts_nonneg (recordMissed now h) ∧
   counts_le h (recordMissed now h)) ∧
  clearHistory h = ∅ ∧
  (∀ r, persistHistory r h ⊆ h ∧ counts_nonneg (persistHistory r h)) ∧
  (∀ r, r ≠ StorageError "QuotaExceededError" ∨ (size h ≤ 30)%nat →
        persistHistory r h = h) ∧
  ((30 < size h)%nat →
     let h' := persistHistory (StorageError "QuotaExceededError") h in
     size h' = 30%nat ∧
     ∀ kept dropped, is_Some (h' !! kept) → is_Some (h !! dropped) →
                     h' !! dropped = None → key_le dropped kept).
Proof.
  intros today.
  pose proof (counts_nonneg_bucket h today Hwf) as [Hc Hm].
  split; [| split; [| split; [| split; [| split]]]].
  - unfold recordCompletion. fold today.
    rewrite completed_at_spec, missed_at_spec.
    split; [apply lookup_insert_eq | split; [| split]].
    + intros key Hne. by apply lookup_insert_ne.
    + apply counts_nonneg_insert; simpl; [done | lia | lia].
    + apply counts_le_insert; simpl; lia.
  - unfold recordMissed. fold today.
    rewrite completed_at_spec, missed_at_spec.
    split; [apply lookup_insert_eq | split; [| split]].
    + intros key Hne. by apply lookup_insert_ne.
    + apply counts_nonneg_insert; simpl; [done | lia | lia].
    + apply counts_le_insert; simpl; lia.
  - reflexivity.
  - intros r. split; [apply persistHistory_subseteq |].
    intros key b Hb. apply (Hwf key).
    by eapply lookup_weaken, persistHistory_subseteq.
  - intros r Hr. unfold persistHistory. destruct r as [| name]; [done |].
    case_bool_decide as Hname; [| done]. subst name.
    destruct (sorted_keys_spec h) as (_ & Hlen & _). rewrite Hlen.
    destruct Hr as [Hr | Hr]; [done |].
    destruct (Nat.ltb_spec 30 (size h)); [lia | done].
  - intros Hbig. unfold persistHistory.
    rewrite bool_decide_eq_true_2 by done.
    destruct (sorted_keys_spec h) as (Hnd & Hlen & Hdom & Hsorted).
    set (keys := merge_sort key_le (map_to_list h).*1) in *.
    destruct (Nat.ltb_spec 30 (length keys)); [| lia].
    set (n := (length keys - 30)%nat). unfold trim_history. split.
    + rewrite trim_history_size.
      * rewrite map_size_empty, length_drop. lia.
      * eapply sublist_NoDup; [exact Hnd | apply sublist_drop].
      * intros key Hin. split; [| apply lookup_empty].
        apply Hdom. by eapply subseteq_drop.
    + intros kept dropped [b Hkept] [b' Hdropped] Hgone.
      apply trim_history_from in Hkept as [Hkept | [Hkept _]].
      { by rewrite lookup_empty in Hkept. }
      assert (Hin : dropped ∈ take n keys ++ drop n keys).
      { rewrite take_drop. apply Hdom. by exists b'. }
      apply elem_of_app in Hin as [Hin | Hin].
      * eapply (StronglySorted_app_1_elem_of key_le (take n keys) (drop n keys));
          [by rewrite take_drop | done | done].
      * rewrite (trim_history_takes h ∅ _ dropped b' Hin Hdropped) in Hgone.
        discriminate Hgone.
Qed.

(** *** The overdue monitor *)

Lemma set_has_spec s x : set_has s x = true ↔ x ∈ s.
Proof. unfold set_has. apply bool_decide_eq_true. Qed.

Lemma set_add_spec s x y : y ∈ set_add s x ↔ y ∈ s ∨ y = x.
Proof.
  unfold set_add. destruct (set_has s x) eqn:Hhas.
  - apply set_has_spec in Hhas. split; [by left | intros [H | ->]; done].
  - rewrite elem_of_app, list_elem_of_singleton. done.
Qed.

Lemma set_add_NoDup s x : NoDup s → NoDup (set_add s x).
Proof.
  intros Hnd. unfold set_add. destruct (set_has s x) eqn:Hhas; [done |].
  apply NoDup_app. split; [done | split; [| apply NoDup_singleton]].
  intros y Hy ->%list_elem_of_singleton.
  apply set_has_spec in Hy. congruence.
Qed.

Lemma monitor_inv_fresh : monitor_inv (mkMonitor [] [] []).
Proof. split; [done | split; [constructor | done]]. Qed.

Lemma checkTask_inv now m task :
  monitor_inv m → monitor_inv (checkTask now (Some log_call) m task).
Proof.
  intros (Hids & Hnd & Hshown). unfold checkTask.
  destruct (task_completed task); [done |].
  destruct (set_has (seen m) (task_id task)) eqn:Hhas; [done |].
  destruct (isOverdue now (task_deadline task)); [| done].
  split; [| split]; simpl.
  - unfold log_call, set_add. by rewrite Hhas, fmap_app, Hids.
  - by apply set_add_NoDup.
  - unfold log_call. by rewrite fmap_app, Hshown.
Qed.

Lemma checkTask_seen_mono {W} now cb (m : Monitor W) task x :
  x ∈ seen m → x ∈ seen (checkTask now cb m task).
Proof.
  intros Hx. unfold checkTask.
  destruct (task_completed task); [done |].
  destruct (set_has (seen m) (task_id task)); [done |].
  destruct (isOverdue now (task_deadline task)); [| done].
  destruct cb; simpl; apply set_add_spec; by left.
Qed.

Lemma checkTask_marks {W} now cb (m : Monitor W) task :
  task_completed task = false →
  isOverdue now (task_deadline task) = true →
  task_id task ∈ seen (checkTask now cb m task).
Proof.
  intros Hc Hover. unfold checkTask. rewrite Hc, Hover.
  destruct (set_has (seen m) (task_id task)) eqn:Hhas.
  - by apply set_has_spec.
  - destruct cb; simpl; apply set_add_spec; by right.
Qed.

Lemma fold_checkTask_inv now l m :
  monitor_inv m → monitor_inv (fold_left (checkTask now (Some log_call)) l m).
Proof.
  revert m. induction l as [| t l IH]; intros m Hm; simpl; [done |].
  by apply IH, checkTask_inv.
Qed.

Lemma fold_checkTask_seen_mono {W} now cb l (m : Monitor W) x :
  x ∈ seen m → x ∈ seen (fold_left (checkTask now cb) l m).
Proof.
  revert m. induction l as [| t l IH]; intros m Hx; simpl; [done |].
  by apply IH, checkTask_seen_mono.
Qed.

Lemma checkOverdueTasks_inv now l m :
  monitor_inv m → monitor_inv (checkOverdueTasks now l (Some log_call) m).
Proof.
  intros Hm. unfold checkOverdueTasks.
  destruct (length l =? 0)%nat; [done | by apply fold_checkTask_inv].
Qed.

Lemma checkOverdueTasks_seen_mono {W} now cb l (m : Monitor W) x :
  x ∈ seen m → x ∈ seen (checkOverdueTasks now l cb m).
Proof.
  intros Hx. unfold checkOverdueTasks.
  destruct (length l =? 0)%nat; [done | by apply fold_checkTask_seen_mono].
Qed.

(** A run of the check enters every pending task that is overdue into the
    notified set. *)
Lemma checkOverdueTasks_marks {W} now cb l (m : Monitor W) task :
  task ∈ l →
  task_completed task = false →
  isOverdue now (task_deadline task) = true →
  task_id task ∈ seen (checkOverdueTasks now l cb m).
Proof.
  intros Hin Hc Hover. unfold checkOverdueTasks.
  destruct (length l =? 0)%nat eqn:Hlen.
  { apply Nat.eqb_eq, nil_length_inv in Hlen. subst l.
    by apply elem_of_nil in Hin. }
  clear Hlen. revert m.
  induction l as [| t l IH]; intros m; [by apply elem_of_nil in Hin |].
  simpl. apply elem_of_cons in Hin as [<- | Hin].
  - by apply fold_checkTask_seen_mono, checkTask_marks.
  - by apply IH.
Qed.

Lemma ticks_inv runs m :
  monitor_inv m → monitor_inv (ticks (Some log_call) runs m).
Proof.
  unfold ticks. revert m.
  induction runs as [| run runs IH]; intros m Hm; simpl; [done |].
  by apply IH, checkOverdueTasks_inv.
Qed.

Lemma ticks_seen_mono {W} cb runs (m : Monitor W) x :
  x ∈ seen m → x ∈ seen (ticks cb runs m).
Proof.
  unfold ticks. revert m.
  induction runs as [| run runs IH]; intros m Hx; simpl; [done |].
  by apply IH, checkOverdueTasks_seen_mono.
Qed.

Lemma count_id_absent id ids : id ∉ ids → count_id id ids = 0%nat.
Proof.
  unfold count_id. induction ids as [| x ids IH]; intros Hnot; [done |].
  apply not_elem_of_cons in Hnot as [Hne Hnot].
  rewrite filter_cons, decide_False by done. by apply IH.
Qed.

Lemma count_id_NoDup id ids : NoDup ids → id ∈ ids → count_id id ids = 1%nat.
Proof.
  induction 1 as [| x ids Hx Hnd IH]; intros Hin.
  - by apply elem_of_nil in Hin.
  - unfold count_id. rewrite filter_cons.
    apply elem_of_cons in Hin as [-> | Hin].
    + rewrite decide_True by done. simpl. f_equal.
      by apply count_id_absent.
    + rewrite decide_False by (intros ->; done). by apply IH.
Qed.

(** C1. Take a run of the check over a task list that holds a task that is not
    completed and whose deadline lies before the clock reading.  After that
    run and any number of further runs, whatever their clock readings and
    task lists, the callback has been invoked exactly once for that task's
    identifier and the notified set holds exactly one entry for it.  (The
    monitor is one that logs its callback invocations, in any state it can be
    in since its creation.) *)
Theorem overdue_task_notified_once
    (l : list Task) (task : Task) (d now : Z) (later : list (Z * list Task))
    (m : Monitor (list Task)) :
  monitor_inv m →
  task ∈ l →
  task_completed task = false →
  parseDate (task_deadline task) = Some d →
  d < now →
  let m' := ticks (Some log_call) ((now, l) :: later) m in
  count_id (task_id task) (task_id <$> world m') = 1%nat ∧
  count_id (task_id task) (seen m') = 1%nat.
Proof.
  intros Hm Hin Hc Hd Hnow m'.
  destruct (ticks_inv ((now, l) :: later) m Hm) as (Hids & Hnd & _).
  fold m' in Hids, Hnd.
  assert (Hseen : task_id task ∈ seen m').
  { unfold m', ticks. simpl. apply ticks_seen_mono.
    apply checkOverdueTasks_marks; [done | done |].
    apply isOverdue_spec. by exists d. }
  rewrite Hids. split; by apply count_id_NoDup.
Qed.

(** *** The discipline score and the overall completion rate *)

Lemma completedCount_bounds l : 0 ≤ completedCount l ≤ Z.of_nat (length l).
Proof.
  unfold completedCount. split; [lia |].
  apply inj_le, length_filter.
Qed.

(** C5 (as the code has it). The score of the empty list is 100.  The score
    of a non-empty list (of fewer than [2^32] tasks, as every JavaScript
    array) is [Math.round] of the double-precision product
    [(completed / total) * 100]; it is the mathematical rounding of
    [100 * completed / total] to the nearest integer, except that when that
    quotient lies exactly half-way between two integers the score may be the
    lower of the two instead of the upper.  The score is always an integer
    from 0 to 100. *)
Theorem disciplineScore_rounds_percentage
    (l : list Task) (Hlen : Z.of_nat (length l) < 2 ^ 32) :
  let c := completedCount l in
  let n := Z.of_nat (length l) in
  (l = [] → disciplineScore l = 100) ∧
  (l ≠ [] →
     disciplineScore l = percent c n ∧
     (disciplineScore l = round_half_up c n ∨
      is_tie c n ∧ disciplineScore l = round_half_up c n - 1)) ∧
  0 ≤ disciplineScore l ≤ 100.
Proof.
  intros c n. unfold disciplineScore. fold c n.
  destruct l as [| t l]; [repeat split; (done || lia) |].
  change (length (t :: l) =? 0)%nat with false. cbv iota.
  pose proof (completedCount_bounds (t :: l)) as Hc. fold c n in Hc.
  assert (Hn : 0 < n < 2 ^ 44) by (subst n; simpl length in *; lia).
  destruct (percent_spec c n Hc Hn) as [Hrange Hround].
  split; [done | split; [| done]].
  intros _. split; [reflexivity | exact Hround].
Qed.

Lemma fold_add_day entries a b :
  fold_left add_day entries {| day_completed := a; day_missed := b |} =
    {| day_completed := a + foldr (λ d s, day_completed d + s) 0 entries;
       day_missed := b + foldr (λ d s, day_missed d + s) 0 entries |}.
Proof.
  revert a b. induction entries as [| d entries IH]; intros a b; simpl.
  - f_equal; lia.
  - unfold add_day at 2. simpl. rewrite IH, !or_zero_id. f_equal; lia.
Qed.

Lemma totals_nonneg h :
  counts_nonneg h → 0 ≤ total_completed h ∧ 0 ≤ total_missed h.
Proof.
  intros Hwf. unfold total_completed, total_missed, Object_values.
  assert (Hall : Forall (λ b, 0 ≤ day_completed b ∧ 0 ≤ day_missed b)
                   (map_to_list h).*2).
  { apply Forall_forall. intros b ((k & b') & -> & H)%list_elem_of_fmap.
    apply elem_of_map_to_list in H. by eapply Hwf. }
  induction Hall as [| b bs [Hc Hm] _ [IHc IHm]]; simpl; lia.
Qed.

(** C8 (as the code has it). On a history of non-negative counts (summing to
    less than [2^44]), with [c] the sum of the [completed] counts and [t] the
    sum of all counts: the rate is 100 when [t] is zero, and for the empty
    history; otherwise it is [Math.round] of the double-precision product
    [(c / t) * 100], which is the mathematical rounding of [100 * c / t] to
    the nearest integer, except that an exact half may be rounded down
    instead of up; it is always an integer from 0 to 100.  For the history
    [{d1: {completed: 3, missed: 1}, d2: {completed: 2, missed: 0}}] it is
    83. *)
Theorem getOverallCompletionRate_rounds_percentage
    (h : gmap string DayBucket) (Hwf : counts_nonneg h)
    (Hsize : total_completed h + total_missed h < 2 ^ 44) :
  let c := total_completed h in
  let t := total_completed h + total_missed h in
  (t = 0 → getOverallCompletionRate h = 100) ∧
  (0 < t →
     getOverallCompletionRate h = percent c t ∧
     (getOverallCompletionRate h = round_half_up c t ∨
      is_tie c t ∧ getOverallCompletionRate h = round_half_up c t - 1)) ∧
  0 ≤ getOverallCompletionRate h ≤ 100 ∧
  getOverallCompletionRate ∅ = 100 ∧
  getOverallCompletionRate
    (<["d1"%string := mkDay 3 1]> (<["d2"%string := mkDay 2 0]> ∅)) = 83.
Proof.
  intros c t.
  destruct (totals_nonneg h Hwf) as [Hc Hm].
  assert (Hrate : getOverallCompletionRate h =
            if (length (Object_values h) =? 0)%nat then 100
            else if 0 <? t then percent c t else 100).
  { unfold getOverallCompletionRate. rewrite fold_add_day. simpl. done. }
  assert (Hempty : (length (Object_values h) =? 0)%nat = true → t = 0).
  { intros Hlen%Nat.eqb_eq%nil_length_inv. subst t.
    unfold total_completed, total_missed. by rewrite Hlen. }
  split; [| split; [| split; [| split]]].
  - intros Ht. rewrite Hrate, Ht. by destruct (_ =? _)%nat.
  - intros Ht. rewrite Hrate.
    destruct (length (Object_values h) =? 0)%nat eqn:Hlen.
    { specialize (Hempty eq_refl). lia. }
    destruct (Z.ltb_spec 0 t); [| lia].
    split; [done |].
    apply percent_spec; subst c t; lia.
  - rewrite Hrate. destruct (length (Object_values h) =? 0)%nat; [lia |].
    destruct (Z.ltb_spec 0 t); [| lia].
    apply percent_spec; subst c t; lia.
  - reflexivity.
  - vm_compute. reflexivity.
Qed.

(** *** What the actions leave untouched *)

(** [completeTask] has no access to the history: whatever it is called on,
    the history is the same afterwards. *)
Lemma completeTask_keeps_history now id a :
  history (completeTask now id a) = history a.
Proof.
  unfold completeTask. simpl.
  destruct (find_task _ (tasks a)) as [t |]; [| done].
  by destruct (negb (task_completed t)).
Qed.

(** A run of the check never changes the task list: no [notified] flag is
    written. *)
Lemma autoCheck_keeps_tasks now a : tasks (autoCheck now a) = tasks a.
Proof. reflexivity. Qed.

(** ** Further properties *)

(** *** The task store: deleting, completing and counting *)

Lemma App_eta (a : App) :
  mkApp (tasks a) (streak a) (history a) (notifiedTasks a) (notices a) = a.
Proof. by destruct a. Qed.

Lemma filter_all {A} (P : A → Prop) `{!∀ x, Decision (P x)} (l : list A) :
  (∀ x, x ∈ l → P x) → filter P l = l.
Proof.
  induction l as [| x l IH]; intros Hall; [done |].
  rewrite filter_cons, decide_True by (apply Hall; by left).
  f_equal. apply IH. intros y Hy. apply Hall. by right.
Qed.

(** X1. [deleteTask] removes exactly the tasks that carry the identifier and
    keeps the others in their order; it touches nothing but the task list; on
    an identifier no task carries it changes nothing at all; deleting twice
    is deleting once, and two deletions commute. *)
Theorem deleteTask_removes_exactly (id : Z) (a : App) :
  (∀ t, t ∈ tasks (deleteTask id a) ↔ t ∈ tasks a ∧ task_id t ≠ id) ∧
  tasks (deleteTask id a) `sublist_of` tasks a ∧
  streak (deleteTask id a) = streak a ∧
  history (deleteTask id a) = history a ∧
  notifiedTasks (deleteTask id a) = notifiedTasks a ∧
  notices (deleteTask id a) = notices a ∧
  ((∀ t, t ∈ tasks a → task_id t ≠ id) → deleteTask id a = a) ∧
  deleteTask id (deleteTask id a) = deleteTask id a ∧
  (∀ id', deleteTask id (deleteTask id' a) = deleteTask id' (deleteTask id a)).
Proof.
  split; [| split; [| split; [| split; [| split; [| split; [| split; [| split]]]]]]];
    try reflexivity.
  - intros t. simpl. rewrite list_elem_of_filter. tauto.
  - apply sublist_filter.
  - intros Hall. unfold deleteTask. rewrite filter_all by done. apply App_eta.
  - unfold deleteTask. simpl. f_equal.
    apply filter_all. intros t [Hne _]%list_elem_of_filter. done.
  - intros id'. unfold deleteTask. simpl. f_equal.
    rewrite !list_filter_filter. apply list_filter_iff. tauto.
Qed.

(** X2. After adding a task under an identifier no task carries, deleting
    that identifier gives back the state before the addition. *)
Theorem deleteTask_undoes_addTask (now : Z) (inp : TaskInput) (a : App) :
  now ∉ task_id <$> tasks a →
  deleteTask now (addTask now inp a) = a.
Proof.
  intros Hfresh. unfold deleteTask, addTask. simpl.
  rewrite filter_app, filter_cons, decide_False by (simpl; intros H; by apply H).
  rewrite filter_nil, app_nil_r, filter_all; [apply App_eta |].
  intros t Ht Heq. apply Hfresh. apply list_elem_of_fmap. by exists t.
Qed.

Lemma complete_one_other now id t : task_id t ≠ id → complete_one now id t = t.
Proof.
  intros Hne. unfold complete_one.
  destruct (Z.eqb_spec (task_id t) id); [done | done].
Qed.

Lemma map_complete_one_other now id l :
  (∀ t, t ∈ l → task_id t ≠ id) → map (complete_one now id) l = l.
Proof.
  induction l as [| t l IH]; intros Hall; [done |].
  cbn. rewrite complete_one_other by (apply Hall; by left).
  f_equal. apply IH. intros u Hu. apply Hall. by right.
Qed.

Lemma completedCount_cons t l :
  completedCount (t :: l) =
    (if task_completed t then 1 else 0) + completedCount l.
Proof.
  unfold completedCount. rewrite filter_cons.
  destruct (task_completed t) eqn:Hc; case_decide; try congruence.
  - simpl length. lia.
  - lia.
Qed.

Lemma completedCount_complete now id l :
  completedCount l ≤ completedCount (map (complete_one now id) l).
Proof.
  induction l as [| t l IH]; [done |].
  cbn [map]. rewrite !completedCount_cons, complete_one_completed.
  destruct (task_id t =? id), (task_completed t); lia.
Qed.

(** X3. [completeTask] keeps the length of the list, the order and every
    identifier, title and deadline; afterwards every task that carries the
    identifier is completed, the tasks under other identifiers are the
    objects they were, no completed task has become incomplete and the
    number of completed tasks has not dropped.  On an identifier no task
    carries, the whole state is unchanged. *)
Theorem completeTask_marks_that_id (now id : Z) (a : App) :
  let a' := completeTask now id a in
  length (tasks a') = length (tasks a) ∧
  task_id <$> tasks a' = task_id <$> tasks a ∧
  task_title <$> tasks a' = task_title <$> tasks a ∧
  task_deadline <$> tasks a' = task_deadline <$> tasks a ∧
  (∀ t, t ∈ tasks a' → task_id t = id → task_completed t = true) ∧
  (∀ i t, tasks a !! i = Some t → task_id t ≠ id → tasks a' !! i = Some t) ∧
  (∀ i t, tasks a !! i = Some t → task_completed t = true →
          ∃ t', tasks a' !! i = Some t' ∧ task_completed t' = true) ∧
  completedCount (tasks a) ≤ completedCount (tasks a') ∧
  ((∀ t, t ∈ tasks a → task_id t ≠ id) → a' = a).
Proof.
  intros a'. subst a'. unfold completeTask. simpl.
  assert (Hfield : ∀ (B : Type) (f : Task → B),
            (∀ t, f (complete_one now id t) = f t) →
            f <$> map (complete_one now id) (tasks a) = f <$> tasks a).
  { intros B f Hf. induction (tasks a) as [| t l IH]; [done |].
    cbn. f_equal; [apply Hf | exact IH]. }
  split; [apply length_map |].
  split; [apply Hfield, complete_one_id |].
  split; [apply Hfield; intros t; unfold complete_one; by destruct (_ =? _) |].
  split; [apply Hfield; intros t; unfold complete_one; by destruct (_ =? _) |].
  split; [| split; [| split; [| split]]].
  - intros t (u & -> & Hu)%list_elem_of_fmap. rewrite complete_one_id.
    intros Hid. rewrite complete_one_completed.
    by destruct (Z.eqb_spec (task_id u) id).
  - intros i t Hi Hne.
    change (map (complete_one now id) (tasks a)) with (complete_one now id <$> tasks a).
    rewrite list_lookup_fmap, Hi. simpl. by rewrite complete_one_other.
  - intros i t Hi Hc. exists (complete_one now id t). split.
    + change (map (complete_one now id) (tasks a)) with (complete_one now id <$> tasks a).
      by rewrite list_lookup_fmap, Hi.
    + rewrite complete_one_completed, Hc. by destruct (_ =? _).
  - apply completedCount_complete.
  - intros Hall.
    destruct (find_task _ (tasks a)) as [u |] eqn:Hfind.
    { apply find_task_first in Hfind as [Hu Hid]. by destruct (Hall u Hu). }
    rewrite map_complete_one_other by done. apply App_eta.
Qed.

Lemma isOverdue_mono now now' deadline :
  now ≤ now' → isOverdue now deadline = true → isOverdue now' deadline = true.
Proof.
  intros Hle. rewrite !isOverdue_spec. intros (d & Hd & Hlt).
  exists d. split; [done | lia].
Qed.

Lemma count_true_cons (f : Task → bool) t l :
  Z.of_nat (length (filter (λ t, f t = true) (t :: l))) =
    (if f t then 1 else 0) + Z.of_nat (length (filter (λ t, f t = true) l)).
Proof.
  rewrite filter_cons.
  destruct (f t) eqn:Hf; case_decide; try congruence.
  - simpl length. lia.
  - lia.
Qed.

Lemma pendingCount_cons now t l :
  pendingCount now (t :: l) =
    (if negb (task_completed t) && negb (isOverdue now (task_deadline t))
     then 1 else 0) + pendingCount now l.
Proof.
  apply (count_true_cons
           (λ t, negb (task_completed t) && negb (isOverdue now (task_deadline t)))).
Qed.

Lemma overdueCount_cons now t l :
  overdueCount now (t :: l) =
    (if negb (task_completed t) && isOverdue now (task_deadline t)
     then 1 else 0) + overdueCount now l.
Proof.
  apply (count_true_cons
           (λ t, negb (task_completed t) && isOverdue now (task_deadline t))).
Qed.

(** X4. At every instant each task is counted once: the pending, the overdue
    and the completed tasks add up to the whole list.  [overdueCount] is the
    length of [getOverdueTasks], whose members are exactly the tasks of the
    list that the task card shows as overdue ([checkOverdue]); and as time
    passes the overdue count can only grow and the pending count only
    shrink. *)
Theorem task_counts_partition (now : Z) (l : list Task) :
  pendingCount now l + overdueCount now l + completedCount l = Z.of_nat (length l) ∧
  overdueCount now l = Z.of_nat (length (getOverdueTasks now l)) ∧
  (∀ t, t ∈ getOverdueTasks now l ↔ t ∈ l ∧ checkOverdue now t = true) ∧
  (∀ now', now ≤ now' →
     overdueCount now l ≤ overdueCount now' l ∧
     pendingCount now' l ≤ pendingCount now l).
Proof.
  assert (Hsum : ∀ n0, pendingCount n0 l + overdueCount n0 l + completedCount l =
                       Z.of_nat (length l)).
  { intros n0. induction l as [| t l IH]; [done |].
    rewrite pendingCount_cons, overdueCount_cons, completedCount_cons.
    simpl length.
    destruct (task_completed t), (isOverdue n0 (task_deadline t)); simpl; lia. }
  split; [apply Hsum | split; [reflexivity | split]].
  - intros t. unfold getOverdueTasks. rewrite list_elem_of_filter. tauto.
  - intros now' Hle.
    assert (Hover : overdueCount now l ≤ overdueCount now' l).
    { induction l as [| t l IH]; [done |].
      rewrite !overdueCount_cons.
      assert (overdueCount now l ≤ overdueCount now' l) as IH'.
      { apply IH. intros n0.
        specialize (Hsum n0).
        rewrite pendingCount_cons, overdueCount_cons, completedCount_cons in Hsum.
        simpl length in Hsum.
        destruct (task_completed t), (isOverdue n0 (task_deadline t));
          simpl in Hsum; lia. }
      destruct (task_completed t); simpl; [lia |].
      destruct (isOverdue now (task_deadline t)) eqn:Hov.
      - rewrite (isOverdue_mono now now' _ Hle Hov). lia.
      - destruct (isOverdue now' (task_deadline t)); lia. }
    pose proof (Hsum now). pose proof (Hsum now'). lia.
Qed.

(** *** The discipline score: anchors and monotonicity *)

Lemma percent_none n : percent 0 n = 0.
Proof. unfold percent. rewrite fdiv_of_int, fmul_of_int. reflexivity. Qed.

Lemma percent_all n : 0 < n < 2 ^ 44 → percent n n = 100.
Proof.
  intros Hn.
  destruct (percent_spec n n ltac:(lia) Hn) as [_ Hround].
  assert (Hhalf : round_half_up n n = 100).
  { unfold round_half_up. symmetry. apply (Z.div_unique _ _ 100 n); lia. }
  assert (Htie : ¬ is_tie n n).
  { unfold is_tie. rewrite <- (Z.mod_unique (200 * n + n) (2 * n) 100 n); lia. }
  destruct Hround as [H | [H _]]; [lia | done].
Qed.

(** A strictly larger share of completed tasks never gives a smaller
    percentage. *)
Lemma percent_mono c n c' n' :
  0 ≤ c ≤ n → 0 ≤ c' ≤ n' → 0 < n < 2 ^ 44 → 0 < n' < 2 ^ 44 →
  c * n' < c' * n →
  percent c n ≤ percent c' n'.
Proof.
  intros Hc Hc' Hn Hn' Hlt.
  destruct (percent_spec c n Hc Hn) as [_ Hlow].
  destruct (percent_spec c' n' Hc' Hn') as [_ Hhigh].
  assert (Hup : percent c n ≤ round_half_up c n) by (destruct Hlow as [-> | [_ ->]]; lia).
  unfold round_half_up, is_tie in *.
  pose proof (Z.div_mod (200 * c + n) (2 * n) ltac:(lia)) as Hd.
  pose proof (Z.mod_pos_bound (200 * c + n) (2 * n) ltac:(lia)) as Hm.
  pose proof (Z.div_mod (200 * c' + n') (2 * n') ltac:(lia)) as Hd'.
  pose proof (Z.mod_pos_bound (200 * c' + n') (2 * n') ltac:(lia)) as Hm'.
  set (k := (200 * c + n) / (2 * n)) in *.
  set (k' := (200 * c' + n') / (2 * n')) in *.
  set (r := (200 * c + n) mod (2 * n)) in *.
  set (r' := (200 * c' + n') mod (2 * n')) in *.
  assert (Hkk : k * (2 * n * n') < (k' + 1) * (2 * n * n')) by nia.
  assert (Hle : k ≤ k') by nia.
  destruct Hhigh as [-> | [Htie ->]]; [lia |].
  assert (Hstrict : k * (2 * n * n') < k' * (2 * n * n')) by nia.
  assert (k < k') by nia. lia.
Qed.

Lemma completedCount_all l :
  Forall (λ t, task_completed t = true) l → completedCount l = Z.of_nat (length l).
Proof.
  induction 1 as [| t l Ht _ IH]; [done |].
  rewrite completedCount_cons, Ht, IH. simpl length. lia.
Qed.

Lemma completedCount_none l :
  Forall (λ t, task_completed t = false) l → completedCount l = 0.
Proof.
  induction 1 as [| t l Ht _ IH]; [done |].
  by rewrite completedCount_cons, Ht, IH.
Qed.

Lemma completedCount_snoc l t :
  completedCount (l ++ [t]) = completedCount l + (if task_completed t then 1 else 0).
Proof.
  induction l as [| u l IH]; simpl app.
  - rewrite completedCount_cons. unfold completedCount. simpl. lia.
  - rewrite !completedCount_cons, IH. lia.
Qed.

(** X5. On a non-empty list (of fewer than [2^32] tasks) the score is 100
    when every task is completed and 0 when none is; and after
    [clearAllTasks] it is 100 again. *)
Theorem disciplineScore_anchors (a : App)
    (Hlen : Z.of_nat (length (tasks a)) < 2 ^ 32) (Hne : tasks a ≠ []) :
  (Forall (λ t, task_completed t = true) (tasks a) → disciplineScore (tasks a) = 100) ∧
  (Forall (λ t, task_completed t = false) (tasks a) → disciplineScore (tasks a) = 0) ∧
  disciplineScore (tasks (clearAllTasks a)) = 100.
Proof.
  unfold disciplineScore at 1 2.
  destruct (tasks a) as [| t l] eqn:Hl; [done |].
  change (length (t :: l) =? 0)%nat with false. cbv iota.
  split; [| split; [| reflexivity]].
  - intros Hall. rewrite completedCount_all by done.
    apply percent_all. simpl length in *. lia.
  - intros Hnone. rewrite completedCount_none by done. apply percent_none.
Qed.

(** X6. Completing a task never lowers the score and adding a task never
    raises it (on lists of fewer than [2^32 - 1] tasks). *)
Theorem disciplineScore_monotone (a : App)
    (Hlen : Z.of_nat (length (tasks a)) < 2 ^ 32 - 1) :
  (∀ now id, disciplineScore (tasks a) ≤ disciplineScore (tasks (completeTask now id a))) ∧
  (∀ now inp, disciplineScore (tasks (addTask now inp a)) ≤ disciplineScore (tasks a)).
Proof.
  split.
  - intros now id. simpl. unfold disciplineScore. rewrite length_map.
    destruct (length (tasks a) =? 0)%nat eqn:Hzero; [done |].
    apply Nat.eqb_neq in Hzero.
    pose proof (completedCount_complete now id (tasks a)) as Hgrow.
    pose proof (completedCount_bounds (tasks a)) as Hb.
    pose proof (completedCount_bounds (map (complete_one now id) (tasks a))) as Hb'.
    rewrite length_map in Hb'.
    destruct (Z.eq_dec (completedCount (tasks a))
                (completedCount (map (complete_one now id) (tasks a)))) as [<- | Hneq];
      [done |].
    apply percent_mono; first [lia | nia].
  - intros now inp. simpl. unfold disciplineScore.
    rewrite length_app. simpl length.
    replace (length (tasks a) + 1 =? 0)%nat with false
      by (symmetry; apply Nat.eqb_neq; lia).
    rewrite completedCount_snoc. simpl. rewrite Z.add_0_r.
    pose proof (completedCount_bounds (tasks a)) as Hb.
    destruct (length (tasks a) =? 0)%nat eqn:Hzero.
    + apply Nat.eqb_eq in Hzero. rewrite Hzero in *.
      assert (completedCount (tasks a) = 0) as -> by lia.
      rewrite percent_none. lia.
    + apply Nat.eqb_neq in Hzero.
      destruct (Z.eq_dec (completedCount (tasks a)) 0) as [-> | Hpos].
      { by rewrite !percent_none. }
      apply percent_mono; first [lia | nia].
Qed.

(** *** Floored quotients and the time remaining *)

(** A quotient that is an integer below [2^53] is computed exactly. *)
Lemma round53_exact_quotient q k :
  0 < q → 0 < k < 2 ^ 53 →
  let x := round53 (q * k) q in
  0 < den x ∧ num x = k * den x.
Proof.
  intros Hq Hk. unfold round53.
  destruct (Z.eqb_spec (q * k) 0) as [H0 | _]; [nia |].
  pose proof (binade_spec (q * k) q ltac:(nia) Hq) as Hbin. simpl in Hbin.
  set (e := binade (q * k) q) in *. unfold num, den. simpl.
  pose proof (pow2_pos (- e)) as Hv.
  assert (He : e ≤ 0).
  { destruct (Z_le_gt_dec e 0) as [Hle | Hgt]; [done |]. exfalso.
    rewrite (pow2_nonpos (- e)) in Hbin by lia.
    assert (2 ≤ pow2 e).
    { unfold pow2. rewrite Z.max_r by lia.
      change 2 with (2 ^ 1) at 1. apply Z.pow_le_mono_r; lia. }
    nia. }
  rewrite (pow2_nonpos e He), !Z.mul_1_r.
  split; [done |].
  unfold round_nearest_even.
  replace (q * k * pow2 (- e)) with (k * pow2 (- e) * q) by ring.
  rewrite Z.mod_mul, Z.div_mul by lia.
  destruct (Z.compare_spec (2 * 0) q); lia.
Qed.

(** [Math.floor(p / q)] is the integer quotient, for [p] below [2^53]. *)
Lemma floor_quotient_exact p q :
  0 ≤ p < 2 ^ 53 → 0 < q →
  Math_floor (fdiv (of_int p) (of_int q)) = p / q.
Proof.
  intros Hp Hq. rewrite fdiv_of_int. unfold Math_floor.
  destruct (Z.eq_dec p 0) as [-> | Hp0].
  { rewrite Zdiv_0_l. reflexivity. }
  pose proof (Z.div_mod p q ltac:(lia)) as Hdiv.
  pose proof (Z.mod_pos_bound p q Hq) as Hmod.
  set (k := p / q) in *. set (r := p mod q) in *.
  assert (Hk : 0 ≤ k) by (apply Z.div_pos; lia).
  destruct (Z.eq_dec r 0) as [Hr | Hr].
  { assert (0 < k) by nia.
    destruct (round53_exact_quotient q k Hq ltac:(nia)) as [HD HN].
    simpl in HD, HN. replace p with (q * k) by lia.
    rewrite HN. apply Z.div_mul. lia. }
  destruct (round53_error p q ltac:(lia) Hq) as [HD [Hlow Hup]].
  simpl in HD, Hlow, Hup. set (x := round53 p q) in *.
  symmetry. apply (Z.div_unique_pos _ _ _ (num x - k * den x)); [| lia].
  split.
  - destruct (Z_le_gt_dec (k * den x) (num x)) as [Hok | Hcontra]; [lia |].
    exfalso.
    assert (2 ^ 53 * (num x * q) < 2 ^ 53 * (k * den x * q)).
    { apply Z.mul_lt_mono_pos_l; [lia |]. apply Z.mul_lt_mono_pos_r; lia. }
    assert ((2 ^ 53 - 1) * (q * k + r) * den x < 2 ^ 53 * (q * k) * den x).
    { replace ((2 ^ 53 - 1) * (q * k + r) * den x)
        with ((2 ^ 53 - 1) * (p * den x)) by (rewrite Hdiv; ring).
      replace (2 ^ 53 * (q * k) * den x) with (2 ^ 53 * (k * den x * q)) by ring.
      lia. }
    assert ((2 ^ 53 - 1) * (q * k + r) < 2 ^ 53 * (q * k)).
    { apply (Z.mul_lt_mono_pos_r (den x)); [done | lia]. }
    nia.
  - destruct (Z_lt_le_dec (num x) ((k + 1) * den x)) as [Hok | Hcontra]; [lia |].
    exfalso.
    assert (2 ^ 53 * ((k + 1) * den x * q) ≤ 2 ^ 53 * (num x * q)).
    { apply Z.mul_le_mono_nonneg_l; [lia |]. apply Z.mul_le_mono_nonneg_r; lia. }
    assert (2 ^ 53 * (q * (k + 1)) * den x ≤ (2 ^ 53 + 1) * (q * k + r) * den x).
    { replace ((2 ^ 53 + 1) * (q * k + r) * den x)
        with ((2 ^ 53 + 1) * (p * den x)) by (rewrite Hdiv; ring).
      replace (2 ^ 53 * (q * (k + 1)) * den x)
        with (2 ^ 53 * ((k + 1) * den x * q)) by ring.
      lia. }
    assert (2 ^ 53 * (q * (k + 1)) ≤ (2 ^ 53 + 1) * (q * k + r)).
    { apply (Z.mul_le_mono_pos_r _ _ (den x)); [done | lia]. }
    nia.
Qed.

(** X7. For a valid deadline [d] (less than [2^53] ms ahead):
    [getTimeRemaining] reports overdue exactly when [d <= now], so at the very
    instant of the deadline it reports overdue while [isOverdue] does not yet;
    before the deadline its [hours] and [minutes] are the whole hours of the
    difference and the whole minutes of the rest, so that
    [hours h + minutes min <= d - now < hours h + (minutes + 1) min] with
    [0 <= minutes < 60], and its text is built from them: days above 24
    whole hours (so 24 hours and some minutes still read "24h ..m left"),
    otherwise hours and minutes, otherwise minutes. *)
Theorem getTimeRemaining_whole_hours_and_minutes
    (now d : Z) (deadline : string)
    (Hd : parseDate deadline = Some d) (Hnear : d - now < 2 ^ 53) :
  let r := getTimeRemaining now deadline in
  let h := (d - now) / 3600000 in
  let m := (d - now) mod 3600000 / 60000 in
  (tr_overdue r = true ↔ d ≤ now) ∧
  (d ≤ now → r = mkRemaining true (Some 0) (Some 0) "Overdue") ∧
  (isOverdue now deadline = true → tr_overdue r = true) ∧
  (d = now → tr_overdue r = true ∧ isOverdue now deadline = false) ∧
  (now < d →
     r = mkRemaining false (Some h) (Some m) (remaining_text h m) ∧
     0 ≤ h ∧ 0 ≤ m < 60 ∧
     h * 3600000 + m * 60000 ≤ d - now < h * 3600000 + (m + 1) * 60000).
Proof.
  intros r h m. subst r. unfold getTimeRemaining, isOverdue. rewrite Hd.
  destruct (Z.leb_spec (d - now) 0) as [Hpast | Hfuture].
  - simpl. split; [split; [lia | done] |].
    split; [done |]. split; [done |]. split; [| lia].
    intros ->. split; [done |]. apply Z.ltb_irrefl.
  - change (1000 * 60 * 60) with 3600000. change (1000 * 60) with 60000.
    pose proof (Z.mod_pos_bound (d - now) 3600000 ltac:(lia)) as Hmod.
    pose proof (Z.div_mod (d - now) 3600000 ltac:(lia)) as Hdiv.
    pose proof (Z.mod_pos_bound ((d - now) mod 3600000) 60000 ltac:(lia)) as Hmod'.
    pose proof (Z.div_mod ((d - now) mod 3600000) 60000 ltac:(lia)) as Hdiv'.
    assert (Hh : 0 ≤ h) by (apply Z.div_pos; lia).
    assert (Hm : 0 ≤ m) by (apply Z.div_pos; lia).
    assert (Hhb : h < 2 ^ 53).
    { apply Z.div_lt_upper_bound; lia. }
    rewrite (floor_quotient_exact (d - now) 3600000) by lia.
    rewrite (floor_quotient_exact ((d - now) mod 3600000) 60000) by lia.
    fold h m.
    rewrite (floor_quotient_exact h 24) by lia.
    simpl tr_overdue.
    split; [split; [done | lia] |].
    split; [lia |].
    split; [intros Hov%Z.ltb_lt; lia |].
    split; [lia |].
    intros _. split; [reflexivity |].
    fold h in Hdiv. fold m in Hdiv'.
    assert (m < 60) by (apply Z.div_lt_upper_bound; lia).
    lia.
Qed.

(** *** Statistics of the last days *)




(** *** What a run of the check does *)

Lemma fold_checkTask_fires {W} now cb l (m : Monitor W) :
  fold_left (checkTask now cb) l m =
    let fired := newly_overdue now l (seen m) in
    mkMonitor (seen m ++ (task_id <$> fired))
              (shown m ++ (OverdueNotice <$> fired))
              (fold_left (call cb) fired (world m)).
Proof.
  revert m. induction l as [| t l IH]; intros m.
  { simpl. rewrite !app_nil_r. by destruct m. }
  simpl fold_left. rewrite IH. unfold checkTask. simpl newly_overdue.
  destruct (task_completed t); [done |].
  destruct (set_has (seen m) (task_id t)) eqn:Hhas; [done |].
  destruct (isOverdue now (task_deadline t)); [| done].
  unfold set_add. rewrite Hhas.
  destruct cb as [f |]; simpl; by rewrite <- !app_assoc.
Qed.

Lemma checkOverdueTasks_fires {W} now cb l (m : Monitor W) :
  checkOverdueTasks now l cb m =
    let fired := newly_overdue now l (seen m) in
    mkMonitor (seen m ++ (task_id <$> fired))
              (shown m ++ (OverdueNotice <$> fired))
              (fold_left (call cb) fired (world m)).
Proof.
  unfold checkOverdueTasks. destruct l as [| t l].
  - simpl. rewrite !app_nil_r. by destruct m.
  - change (length (t :: l) =? 0)%nat with false. cbv iota.
    apply fold_checkTask_fires.
Qed.

(** The tasks notified are pending tasks of the list, overdue, and new to the
    set. *)
Lemma newly_overdue_sound now l seen t :
  t ∈ newly_overdue now l seen →
  t ∈ l ∧ task_completed t = false ∧ isOverdue now (task_deadline t) = true ∧
  task_id t ∉ seen.
Proof.
  revert seen. induction l as [| u l IH]; intros seen; simpl.
  { intros H. by apply elem_of_nil in H. }
  destruct (task_completed u) eqn:Hc; simpl.
  { intros (? & ? & ? & ?)%IH. repeat split; try done. by right. }
  destruct (set_has seen (task_id u)) eqn:Hhas; simpl.
  { intros (? & ? & ? & ?)%IH. repeat split; try done. by right. }
  destruct (isOverdue now (task_deadline u)) eqn:Hov.
  - intros [-> | Hin]%elem_of_cons.
    + repeat split; try done; [by left |].
      intros Hin%set_has_spec. congruence.
    + apply IH in Hin as (? & ? & ? & Hnot). repeat split; try done; [by right |].
      intros Hin. apply Hnot. apply elem_of_app. by left.
  - intros (? & ? & ? & ?)%IH. repeat split; try done. by right.
Qed.

Lemma newly_overdue_sublist now l seen : newly_overdue now l seen `sublist_of` l.
Proof.
  revert seen. induction l as [| u l IH]; intros seen; simpl; [done |].
  destruct (_ && _); [by apply sublist_skip | by apply sublist_cons].
Qed.

Lemma newly_overdue_NoDup now l seen :
  NoDup seen → NoDup (seen ++ (task_id <$> newly_overdue now l seen)).
Proof.
  revert seen. induction l as [| u l IH]; intros seen Hnd; simpl.
  { by rewrite app_nil_r. }
  destruct (task_completed u); simpl; [by apply IH |].
  destruct (set_has seen (task_id u)) eqn:Hhas; simpl; [by apply IH |].
  destruct (isOverdue now (task_deadline u)); [| by apply IH].
  rewrite fmap_cons, cons_middle, app_assoc. apply IH.
  apply NoDup_app. split; [done | split; [| apply NoDup_singleton]].
  intros x Hx ->%list_elem_of_singleton.
  apply set_has_spec in Hx. congruence.
Qed.

(** Every pending overdue task of the list is in the set after the run. *)
Lemma newly_overdue_complete now l seen t :
  t ∈ l → task_completed t = false → isOverdue now (task_deadline t) = true →
  task_id t ∈ seen ++ (task_id <$> newly_overdue now l seen).
Proof.
  intros Hin Hc Hov.
  pose proof (checkOverdueTasks_marks now None l (mkMonitor seen [] tt) t Hin Hc Hov) as H.
  by rewrite checkOverdueTasks_fires in H.
Qed.

Lemma newly_overdue_none now l seen :
  (∀ t, t ∈ l → task_completed t = false →
        isOverdue now (task_deadline t) = true → task_id t ∈ seen) →
  newly_overdue now l seen = [].
Proof.
  induction l as [| u l IH]; intros Hall; simpl; [done |].
  destruct (task_completed u) eqn:Hc; simpl.
  { apply IH. intros t Ht. apply Hall. by right. }
  destruct (set_has seen (task_id u)) eqn:Hhas; simpl.
  { apply IH. intros t Ht. apply Hall. by right. }
  destruct (isOverdue now (task_deadline u)) eqn:Hov.
  - assert (task_id u ∈ seen) as Hin by (apply Hall; [by left | done | done]).
    apply set_has_spec in Hin. congruence.
  - apply IH. intros t Ht. apply Hall. by right.
Qed.

Lemma recordMissed_times now (h : gmap string DayBucket) (fired : list Task) :
  let h' := fold_left (call (Some (onTaskOverdue now))) fired h in
  getTodayStats now h' =
    {| day_completed := completed_at h (getTodayKey now);
       day_missed := missed_at h (getTodayKey now) + Z.of_nat (length fired) |} ∧
  ∀ key, key ≠ getTodayKey now → h' !! key = h !! key.
Proof.
  revert h. induction fired as [| t fired IH]; intros h; simpl.
  { split; [| done]. unfold getTodayStats. f_equal. lia. }
  destruct (IH (onTaskOverdue now t h)) as [Hstats Hother].
  split.
  - rewrite Hstats. unfold onTaskOverdue, recordMissed, completed_at, missed_at.
    rewrite !lookup_insert_eq. simpl. rewrite !or_zero_id. f_equal. lia.
  - intros key Hne. rewrite Hother by done.
    unfold onTaskOverdue, recordMissed. by apply lookup_insert_ne.
Qed.

(** X9. One run of the check inside the application notifies a sublist of
    the task list, each task of it pending, overdue and not yet in the
    notified set, no identifier twice, and afterwards every pending overdue
    task of the list is in the set.  For exactly these tasks, in order, it
    asks for an overdue notification, enters the identifier into the set and
    records one miss: today's [missed] count grows by their number, today's
    [completed] count and all other buckets stay, and so do the tasks and the
    streak. *)
Theorem autoCheck_accounts_for_each_miss (now : Z) (a : App) :
  let fired := newly_overdue now (tasks a) (notifiedTasks a) in
  let a' := autoCheck now a in
  fired `sublist_of` tasks a ∧
  (∀ t, t ∈ fired → task_completed t = false ∧
                    isOverdue now (task_deadline t) = true ∧
                    task_id t ∉ notifiedTasks a) ∧
  (NoDup (notifiedTasks a) → NoDup (notifiedTasks a')) ∧
  (∀ t, t ∈ tasks a → task_completed t = false →
        isOverdue now (task_deadline t) = true → task_id t ∈ notifiedTasks a') ∧
  notices a' = notices a ++ (OverdueNotice <$> fired) ∧
  notifiedTasks a' = notifiedTasks a ++ (task_id <$> fired) ∧
  getTodayStats now (history a') =
    {| day_completed := day_completed (getTodayStats now (history a));
       day_missed := day_missed (getTodayStats now (history a)) +
                     Z.of_nat (length fired) |} ∧
  (∀ key, key ≠ getTodayKey now → history a' !! key = history a !! key) ∧
  tasks a' = tasks a ∧ streak a' = streak a.
Proof.
  intros fired a'. subst a'. unfold autoCheck.
  rewrite checkOverdueTasks_fires. simpl. fold fired.
  destruct (recordMissed_times now (history a) fired) as [Hstats Hother].
  split; [apply newly_overdue_sublist |].
  split; [intros t Ht; by apply newly_overdue_sound in Ht as (_ & ? & ? & ?) |].
  split; [apply newly_overdue_NoDup |].
  split; [intros t; apply newly_overdue_complete |].
  repeat split; try done.
Qed.

(** X10. A run of the check changes nothing when every pending overdue task
    of the list is already in the notified set: in particular on an empty
    list, on a list of completed tasks, and when it directly follows another
    run at the same clock reading (as [forceCheck] right after a tick). *)
Theorem autoCheck_settles (now : Z) (a : App) :
  ((∀ t, t ∈ tasks a → task_completed t = false →
         isOverdue now (task_deadline t) = true → task_id t ∈ notifiedTasks a) →
     autoCheck now a = a) ∧
  (tasks a = [] → autoCheck now a = a) ∧
  (Forall (λ t, task_completed t = true) (tasks a) → autoCheck now a = a) ∧
  autoCheck now (autoCheck now a) = autoCheck now a ∧
  forceCheck now (autoCheck now a) = autoCheck now a.
Proof.
  assert (Hquiet : ∀ b : App,
            (∀ t, t ∈ tasks b → task_completed t = false →
                  isOverdue now (task_deadline t) = true →
                  task_id t ∈ notifiedTasks b) →
            autoCheck now b = b).
  { intros b Hall. unfold autoCheck. rewrite checkOverdueTasks_fires. simpl.
    rewrite newly_overdue_none by done. simpl. rewrite !app_nil_r.
    apply App_eta. }
  assert (Htwice : autoCheck now (autoCheck now a) = autoCheck now a).
  { apply Hquiet. intros t Ht Hc Hov.
    unfold autoCheck in *. rewrite checkOverdueTasks_fires in *. simpl in *.
    by apply newly_overdue_complete. }
  split; [apply Hquiet |].
  split; [intros Hnil; apply Hquiet; rewrite Hnil; intros t Ht; by apply elem_of_nil in Ht |].
  split; [| split; [exact Htwice | exact Htwice]].
  intros Hall. apply Hquiet. intros t Ht Hc.
  rewrite Forall_forall in Hall. rewrite (Hall t Ht) in Hc. discriminate.
Qed.

Lemma autoCheck_skips (now id : Z) (a : App) :
  (∀ t, t ∈ tasks a → task_id t = id → task_completed t = true) →
  id ∉ notifiedTasks a →
  let a' := autoCheck now a in
  (id ∉ notifiedTasks a') ∧ tasks a' = tasks a ∧
  ∀ t, OverdueNotice t ∈ notices a' → task_id t = id → OverdueNotice t ∈ notices a.
Proof.
  intros Hdone Hnew a'. subst a'. unfold autoCheck.
  rewrite checkOverdueTasks_fires. simpl.
  assert (Hnone : ∀ t, t ∈ newly_overdue now (tasks a) (notifiedTasks a) →
                       task_id t ≠ id).
  { intros t (Hin & Hc & _)%newly_overdue_sound Hid.
    rewrite (Hdone t Hin Hid) in Hc. discriminate. }
  split; [| split; [done |]].
  - intros [Hin | Hin]%elem_of_app; [done |].
    apply list_elem_of_fmap in Hin as (t & -> & Ht). by apply (Hnone t).
  - intros t [Hin | Hin]%elem_of_app Hid; [done |].
    apply list_elem_of_fmap in Hin as (u & [= ->] & Hu). by destruct (Hnone u).
Qed.

(** X11. Once a task is completed without having been notified, no later run
    of the check, at whatever clock readings, enters its identifier into the
    notified set or asks for an overdue notification for it. *)
Theorem completed_task_never_notified (now id : Z) (nows : list Z) (a : App) :
  id ∉ notifiedTasks a →
  let a' := autoChecks nows (completeTask now id a) in
  (id ∉ notifiedTasks a') ∧
  ∀ t, OverdueNotice t ∈ notices a' → task_id t = id → OverdueNotice t ∈ notices a.
Proof.
  intros Hnew a'. subst a'.
  assert (Hstart : ∀ t, OverdueNotice t ∈ notices (completeTask now id a) →
                        task_id t = id → OverdueNotice t ∈ notices a).
  { intros t. unfold completeTask. simpl.
    destruct (find_task _ (tasks a)) as [u |]; [| done].
    destruct (negb (task_completed u)); [| done]. simpl.
    intros [Hin | Hin]%elem_of_app; [done |].
    apply list_elem_of_singleton in Hin. discriminate. }
  assert (Hdone : ∀ t, t ∈ tasks (completeTask now id a) → task_id t = id →
                       task_completed t = true).
  { intros t. simpl. intros (u & -> & Hu)%list_elem_of_fmap.
    rewrite complete_one_id, complete_one_completed. intros ->.
    by rewrite Z.eqb_refl. }
  assert (Hset : id ∉ notifiedTasks (completeTask now id a)).
  { unfold completeTask. simpl.
    destruct (find_task _ (tasks a)) as [u |]; [| done].
    by destruct (negb (task_completed u)). }
  revert Hstart Hdone Hset. generalize (completeTask now id a). clear Hnew.
  unfold autoChecks.
  induction nows as [| n nows IH]; intros b Hstart Hdone Hset; simpl.
  { split; [done | exact Hstart]. }
  destruct (autoCheck_skips n id b Hdone Hset) as (Hset' & Htasks & Hnot).
  apply IH.
  - intros t Ht Hid. apply Hstart; [by apply Hnot | done].
  - intros t. rewrite Htasks. apply Hdone.
  - exact Hset'.
Qed.

(** X12. The notified set is all that keeps a task from being notified
    again.  After a first run from an empty set, [resetNotifications] empties
    the set, and the next run at the same instant asks again for the very
    notifications of the first run and records their misses a second time:
    today's [missed] count has grown by twice their number. *)
Theorem resetNotifications_repeats_the_run (now : Z) (a : App) :
  notifiedTasks a = [] →
  let a1 := autoCheck now a in
  let a2 := autoCheck now (resetNotifications a1) in
  let fired := newly_overdue now (tasks a) [] in
  notifiedTasks (resetNotifications a1) = [] ∧
  notices a1 = notices a ++ (OverdueNotice <$> fired) ∧
  notices a2 = notices a1 ++ (OverdueNotice <$> fired) ∧
  notifiedTasks a2 = notifiedTasks a1 ∧
  day_missed (getTodayStats now (history a2)) =
    day_missed (getTodayStats now (history a)) + 2 * Z.of_nat (length fired).
Proof.
  intros Hfresh a1 a2 fired. subst a1 a2. unfold autoCheck, resetNotifications.
  rewrite !checkOverdueTasks_fires. cbn [tasks history notifiedTasks notices seen shown world].
  rewrite Hfresh. fold fired.
  set (h1 := fold_left (call (Some (onTaskOverdue now))) fired (history a)).
  destruct (recordMissed_times now (history a) fired) as [H1 _].
  destruct (recordMissed_times now h1 fired) as [H2 _].
  cbv zeta in H1, H2. fold h1 in H1.
  split; [done | split; [done | split; [done | split; [done |]]]].
  rewrite H2. cbn [day_missed].
  change (missed_at h1 (getTodayKey now)) with (day_missed (getTodayStats now h1)).
  rewrite H1. cbn [day_missed].
  change (missed_at (history a) (getTodayKey now))
    with (day_missed (getTodayStats now (history a))).
  lia.
Qed.

(** *** The history store: how the records compose *)

Lemma totals_insert (h : gmap string DayBucket) key b :
  total_completed (<[key := b]> h) =
    total_completed h - day_completed (bucket_or_zeros h key) + day_completed b ∧
  total_missed (<[key := b]> h) =
    total_missed h - day_missed (bucket_or_zeros h key) + day_missed b.
Proof.
  assert (Hperm : ∀ (f : DayBucket → Z) (l l' : list (string * DayBucket)),
            l ≡ₚ l' → foldr (λ d s, f d + s) 0 l.*2 = foldr (λ d s, f d + s) 0 l'.*2).
  { intros f l l' H. induction H as [| x l l' _ IH | x y l | l l' l'' _ IH1 _ IH2];
      rewrite ?fmap_cons; cbn [foldr]; [done | by rewrite IH | lia | congruence]. }
  assert (Hins : ∀ f : DayBucket → Z,
            foldr (λ d s, f d + s) 0 (map_to_list (<[key := b]> h)).*2 =
            foldr (λ d s, f d + s) 0 (map_to_list h).*2 -
              f (bucket_or_zeros h key) + f b ∨
            h !! key = None ∧
            foldr (λ d s, f d + s) 0 (map_to_list (<[key := b]> h)).*2 =
              f b + foldr (λ d s, f d + s) 0 (map_to_list h).*2).
  { intros f. destruct (h !! key) as [old |] eqn:Hold.
    - left. rewrite <- insert_delete_eq.
      rewrite (Hperm f _ _ (map_to_list_insert (delete key h) key b
                              (lookup_delete_eq h key))).
      rewrite <- (Hperm f _ _ (map_to_list_delete h key old Hold)).
      unfold bucket_or_zeros. rewrite Hold. simpl. lia.
    - right. split; [done |].
      by rewrite (Hperm f _ _ (map_to_list_insert h key b Hold)). }
  unfold total_completed, total_missed, Object_values.
  split.
  - destruct (Hins day_completed) as [-> | [Hnone ->]]; [done |].
    unfold bucket_or_zeros. rewrite Hnone. simpl. lia.
  - destruct (Hins day_missed) as [-> | [Hnone ->]]; [done |].
    unfold bucket_or_zeros. rewrite Hnone. simpl. lia.
Qed.

(** X13. Recording a completion and recording a miss commute, whatever the
    clock readings of the two calls (same day or not).  Each
    [recordCompletion] raises the sum of the [completed] counts of the whole
    history by exactly 1 and leaves the sum of the [missed] counts; each
    [recordMissed] does the converse.  After [clearHistory] the overall
    completion rate is 100. *)
Theorem history_records_compose (now now' : Z) (h : gmap string DayBucket) :
  recordMissed now (recordCompletion now' h) =
    recordCompletion now' (recordMissed now h) ∧
  total_completed (recordCompletion now h) = total_completed h + 1 ∧
  total_missed (recordCompletion now h) = total_missed h ∧
  total_completed (recordMissed now h) = total_completed h ∧
  total_missed (recordMissed now h) = total_missed h + 1 ∧
  getOverallCompletionRate (clearHistory h) = 100.
Proof.
  split; [| split; [| split; [| split; [| split; [| reflexivity]]]]].
  - unfold recordMissed, recordCompletion, completed_at, missed_at.
    set (k := getTodayKey now). set (k' := getTodayKey now').
    destruct (decide (k = k')) as [<- | Hne].
    + rewrite !lookup_insert_eq, !insert_insert_eq. simpl.
      by rewrite !or_zero_id.
    + rewrite !lookup_insert_ne by done.
      by apply insert_insert_ne.
  - unfold recordCompletion. rewrite completed_at_spec, missed_at_spec.
    destruct (totals_insert h (getTodayKey now)
                {| day_completed := day_completed (bucket_or_zeros h (getTodayKey now)) + 1;
                   day_missed := day_missed (bucket_or_zeros h (getTodayKey now)) |})
      as [-> _].
    simpl. lia.
  - unfold recordCompletion. rewrite completed_at_spec, missed_at_spec.
    destruct (totals_insert h (getTodayKey now)
                {| day_completed := day_completed (bucket_or_zeros h (getTodayKey now)) + 1;
                   day_missed := day_missed (bucket_or_zeros h (getTodayKey now)) |})
      as [_ ->].
    simpl. lia.
  - unfold recordMissed. rewrite completed_at_spec, missed_at_spec.
    destruct (totals_insert h (getTodayKey now)
                {| day_completed := day_completed (bucket_or_zeros h (getTodayKey now));
                   day_missed := day_missed (bucket_or_zeros h (getTodayKey now)) + 1 |})
      as [-> _].
    simpl. lia.
  - unfold recordMissed. rewrite completed_at_spec, missed_at_spec.
    destruct (totals_insert h (getTodayKey now)
                {| day_completed := day_completed (bucket_or_zeros h (getTodayKey now));
                   day_missed := day_missed (bucket_or_zeros h (getTodayKey now)) + 1 |})
      as [_ ->].
    simpl. lia.
Qed.

(** What the trimming keeps: with [n] the number of keys beyond 30, the keys
    of the history in sorted order split into the [n] dropped and the 30
    kept. *)
Lemma persistHistory_trims (h : gmap string DayBucket) :
  (30 < size h)%nat →
  ∃ dropped kept : list string,
    length kept = 30%nat ∧
    StronglySorted key_le (dropped ++ kept) ∧
    (∀ key, key ∈ dropped ++ kept ↔ is_Some (h !! key)) ∧
    persistHistory (StorageError "QuotaExceededError") h = trim_history h kept ∧
    size (trim_history h kept) = 30%nat.
Proof.
  intros Hbig. unfold persistHistory. rewrite bool_decide_eq_true_2 by done.
  destruct (sorted_keys_spec h) as (Hnd & Hlen & Hdom & Hsorted).
  set (keys := merge_sort key_le (map_to_list h).*1) in *.
  destruct (Nat.ltb_spec 30 (length keys)); [| lia].
  set (n := (length keys - 30)%nat).
  exists (take n keys), (drop n keys). rewrite take_drop.
  split; [rewrite length_drop; lia |].
  split; [done | split; [done | split; [done |]]].
  unfold trim_history. rewrite trim_history_size.
  - rewrite map_size_empty, length_drop. lia.
  - eapply sublist_NoDup; [exact Hnd | apply sublist_drop].
  - intros key Hin. split; [| apply lookup_empty].
    apply Hdom. by eapply subseteq_drop.
Qed.

(** X14. After a write that failed with a [QuotaExceededError] the history
    holds at most 30 buckets, so persisting it again drops nothing more,
    whatever the outcome of the second write.  And no write, failed or not,
    drops the bucket under the greatest key: the most recent day is kept. *)
Theorem persistHistory_settles_and_keeps_latest (h : gmap string DayBucket) :
  let quota := StorageError "QuotaExceededError" in
  (size (persistHistory quota h) ≤ 30)%nat ∧
  ((size h ≤ 30)%nat → ∀ r, persistHistory r h = h) ∧
  (∀ r, persistHistory r (persistHistory quota h) = persistHistory quota h) ∧
  (∀ r latest,
     is_Some (h !! latest) →
     (∀ key, is_Some (h !! key) → key_le key latest) →
     persistHistory r h !! latest = h !! latest).
Proof.
  intros quota.
  assert (Hsmall : ∀ g : gmap string DayBucket,
            (size g ≤ 30)%nat → ∀ r, persistHistory r g = g).
  { intros g Hg r. unfold persistHistory. destruct r as [| name]; [done |].
    case_bool_decide; [| done].
    destruct (sorted_keys_spec g) as (_ & Hlen & _). rewrite Hlen.
    destruct (Nat.ltb_spec 30 (size g)); [lia | done]. }
  assert (Hsize : (size (persistHistory quota h) ≤ 30)%nat).
  { destruct (le_lt_dec (size h) 30) as [Hle | Hgt].
    - by rewrite Hsmall.
    - destruct (persistHistory_trims h Hgt) as (dropped & kept & _ & _ & _ & Heq & Hs).
      subst quota. rewrite Heq, Hs. done. }
  split; [exact Hsize | split; [apply Hsmall | split; [intros r; by apply Hsmall |]]].
  intros r latest [b Hb] Hmax.
  destruct r as [| name]; [done |].
  destruct (decide (name = "QuotaExceededError"%string)) as [-> | Hname];
    [| unfold persistHistory; by rewrite bool_decide_eq_false_2].
  destruct (le_lt_dec (size h) 30) as [Hle | Hgt]; [by rewrite Hsmall |].
  destruct (persistHistory_trims h Hgt)
    as (dropped & kept & Hlen & Hsorted & Hdom & -> & _).
  rewrite Hb.
  assert (Hin : latest ∈ dropped ++ kept) by (apply Hdom; by exists b).
  assert (Hkept : latest ∈ kept).
  { apply elem_of_app in Hin as [Hin | Hin]; [| done].
    destruct kept as [| k kept]; [done |].
    assert (key_le latest k).
    { eapply (StronglySorted_app_1_elem_of key_le dropped (k :: kept));
        [done | done | by left]. }
    assert (key_le k latest).
    { apply Hmax, Hdom. apply elem_of_app. right. by left. }
    assert (latest = k) as -> by (by apply String.leb_antisym).
    by left. }
  by apply trim_history_takes.
Qed.

(** *** Notifications *)

Lemma showNotification_Some w title options n :
  showNotification w title options = Some n ↔
  canShowNotifications w = true ∧ constructor_throws w = false ∧
  n = {| n_title := title;
         n_options :=
           {| n_icon := "/icon.svg"; n_badge := "/icon.svg";
              n_vibrate := [200; 100; 200];
              n_requireInteraction := default false (opt_requireInteraction options);
              n_body := opt_body options;
              n_tag := opt_tag options |} |}.
Proof.
  unfold showNotification, canShowNotifications.
  destruct (has_Notification w), (is_granted (permission w)),
    (constructor_throws w); simpl; split;
    try (intros [= <-]; done); try (intros (? & ? & ?); congruence); try done.
Qed.

(** X15. Nothing is displayed, and nothing fails, unless the browser has the
    [Notification] constructor and the permission is granted
    ([canShowNotifications], the status ["granted"]): then, short of an
    exception in the constructor, an overdue notification is shown that stays
    until the user interacts, and a completion notification that does not;
    both carry the default icon, badge and vibration pattern.  Without the
    permission no call of a log of notification calls displays anything. *)
Theorem notifications_are_gated (w : Browser) (task : Task) :
  (canShowNotifications w = true ↔ getNotificationStatus w = "granted"%string) ∧
  (canShowNotifications w = false →
     notifyOverdueTask w task = None ∧ notifyTaskCompleted w task = None ∧
     ∀ log, omap (display w) log = []) ∧
  (canShowNotifications w = true → constructor_throws w = false →
     ∃ n n', notifyOverdueTask w task = Some n ∧
             notifyTaskCompleted w task = Some n' ∧
             n_requireInteraction (n_options n) = true ∧
             n_requireInteraction (n_options n') = false ∧
             n_icon (n_options n) = "/icon.svg"%string ∧
             n_icon (n_options n') = "/icon.svg"%string ∧
             n_badge (n_options n) = n_badge (n_options n') ∧
             n_vibrate (n_options n) = [200; 100; 200] ∧
             n_vibrate (n_options n') = [200; 100; 200]).
Proof.
  split; [| split].
  - unfold canShowNotifications, getNotificationStatus.
    destruct (has_Notification w), (permission w); simpl; split; done.
  - intros Hno.
    assert (Hnone : ∀ title options, showNotification w title options = None).
    { intros title options.
      destruct (showNotification w title options) as [n |] eqn:Hn; [| done].
      apply showNotification_Some in Hn as (Hyes & _). congruence. }
    split; [apply Hnone | split; [apply Hnone |]].
    intros log. induction log as [| n log IH]; [done |].
    simpl. destruct n; simpl; unfold notifyOverdueTask, notifyTaskCompleted;
      by rewrite Hnone.
  - intros Hyes Hfine. eexists _, _.
    split; [by apply showNotification_Some |].
    split; [by apply showNotification_Some |].
    simpl. repeat split; reflexivity.
Qed.

(** X16. The tags tell the notifications apart: two overdue notifications
    carry the same tag exactly when their tasks carry the same identifier,
    likewise two completion notifications, and an overdue notification never
    carries the tag of a completion notification. *)
Theorem notification_tags_identify_tasks
    (w : Browser) (t1 t2 : Task) (o1 o2 c1 c2 : Notification) :
  notifyOverdueTask w t1 = Some o1 → notifyOverdueTask w t2 = Some o2 →
  notifyTaskCompleted w t1 = Some c1 → notifyTaskCompleted w t2 = Some c2 →
  (n_tag (n_options o1) = n_tag (n_options o2) ↔ task_id t1 = task_id t2) ∧
  (n_tag (n_options c1) = n_tag (n_options c2) ↔ task_id t1 = task_id t2) ∧
  n_tag (n_options o1) ≠ n_tag (n_options c2).
Proof.
  unfold notifyOverdueTask, notifyTaskCompleted.
  intros (_ & _ & ->)%showNotification_Some (_ & _ & ->)%showNotification_Some
         (_ & _ & ->)%showNotification_Some (_ & _ & ->)%showNotification_Some.
  simpl. split; [| split].
  - split; [| by intros ->].
    intros [= H]. by apply (inj pretty).
  - split; [| by intros ->].
    intros [= H]. by apply (inj pretty).
  - intros [=].
Qed.

(** *** Warnings *)

Lemma random_index_in_range (random : Number) :
  0 ≤ num random →
  2 ^ 53 * num random ≤ (2 ^ 53 - 1) * den random →
  0 ≤ Math_floor (fmul random (of_int 3)) < 3.
Proof.
  intros Hnum Hbelow.
  assert (Hden : 0 < den random) by apply pow2_pos. rewrite fmul_of_int. unfold Math_floor.
  destruct (Z.eq_dec (num random) 0) as [-> | Hpos].
  { simpl. done. }
  destruct (round53_error (num random * 3) (den random) ltac:(lia) Hden)
    as [HD [Hlow Hup]].
  simpl in HD, Hlow, Hup. set (x := round53 (num random * 3) (den random)) in *.
  assert (HN : 0 ≤ num x).
  { assert (0 ≤ (2 ^ 53 - 1) * (num random * 3 * den x)) by nia. nia. }
  split; [apply Z.div_pos; lia |].
  apply Z.div_lt_upper_bound; [done |].
  destruct (Z_lt_le_dec (num x) (den x * 3)) as [Hok | Hcontra]; [done |].
  exfalso.
  assert (2 ^ 53 * (den x * 3 * den random) ≤ 2 ^ 53 * (num x * den random)).
  { apply Z.mul_le_mono_nonneg_l; [lia |]. apply Z.mul_le_mono_nonneg_r; lia. }
  assert (2 ^ 53 * den random * (3 * den x) ≤ (2 ^ 53 + 1) * num random * (3 * den x))
    by lia.
  assert (2 ^ 53 * den random ≤ (2 ^ 53 + 1) * num random).
  { apply (Z.mul_le_mono_pos_r _ _ (3 * den x)); lia. }
  lia.
Qed.

(** X17. When the request throws, the warning is always one of the three
    local messages, never [undefined]: for every value [Math.random()] can
    return (a Number from 0 up to [1 - 2^-53]) the index computed from it is
    0, 1 or 2.  Each of the messages quotes the title of the task. *)
Theorem generateWarning_falls_back_in_range (random : Number) (task : Task) :
  0 ≤ num random →
  2 ^ 53 * num random ≤ (2 ^ 53 - 1) * den random →
  ∃ message,
    generateWarning FetchThrows random task = Some message ∧
    message ∈ fallback_messages task ∧
    ∃ before after,
      message = (before +:+ dquote +:+ task_title task +:+ dquote +:+ after)%string.
Proof.
  intros Hnum Hbelow.
  pose proof (random_index_in_range random Hnum Hbelow) as Hi.
  unfold generateWarning. simpl length.
  change (Z.of_nat 3) with 3.
  set (i := Math_floor (fmul random (of_int 3))) in *.
  assert (i = 0 ∨ i = 1 ∨ i = 2) as [-> | [-> | ->]] by lia; simpl.
  - eexists. split; [reflexivity |]. split; [by left |].
    by exists "You missed "%string, ". Discipline is built through action."%string.
  - eexists. split; [reflexivity |]. split; [right; by left |].
    by exists "Late again? "%string, " deserved priority."%string.
  - eexists. split; [reflexivity |]. split; [right; right; by left |].
    by exists "No excuses. "%string, " was scheduled for a reason."%string.
Qed.

(** X18. The local messages are used only when the request itself throws.
    Whatever the server replies is passed on: the text of the completion when
    the server obtained one, and [undefined] when the completion call failed
    on the server, whose reply then has status 500 and no [message]. *)
Theorem generateWarning_passes_the_reply_on
    (completion : option string) (random : Number) (task : Task) :
  generateWarning (FetchReplies (ai_warning completion).1 (ai_warning completion).2)
    random task = completion ∧
  ((ai_warning completion).1 = 500 ↔ completion = None) ∧
  ((ai_warning completion).1 = 200 ↔ is_Some completion) ∧
  (completion = None →
     generateWarning (FetchReplies (ai_warning completion).1 (ai_warning completion).2)
       random task = None ∧
     reply_error (ai_warning completion).2 = Some "AI failed"%string).
Proof.
  destruct completion as [content |]; simpl.
  - split; [done |]. split; [split; intros [=] |].
    split; [split; [by exists content | done] | intros [=]].
  - split; [done |]. split; [done |].
    split; [split; [intros [=] | by intros [? [=]]] | done].
Qed.

(** *** The daily summary *)

Lemma percent_thresholds c n :
  0 ≤ c ≤ n → 0 < n < 2 ^ 44 →
  (4 * n ≤ 5 * c → 80 ≤ percent c n) ∧
  (n ≤ 2 * c → 50 ≤ percent c n) ∧
  (200 * c < 159 * n → percent c n < 80) ∧
  (200 * c < 99 * n → percent c n < 50).
Proof.
  intros Hc Hn.
  destruct (percent_spec c n Hc Hn) as [_ Hp].
  assert (Hdiv : ∀ k, k * (2 * n) ≤ 200 * c + n → k ≤ round_half_up c n).
  { intros k Hk. unfold round_half_up. apply Z.div_le_lower_bound; lia. }
  assert (Hlt : ∀ k, 200 * c + n < k * (2 * n) → round_half_up c n < k).
  { intros k Hk. unfold round_half_up. apply Z.div_lt_upper_bound; lia. }
  assert (Htie : is_tie c n → 200 * c + n = 2 * n * round_half_up c n).
  { unfold is_tie, round_half_up. intros Hmod.
    pose proof (Z.div_mod (200 * c + n) (2 * n) ltac:(lia)). lia. }
  split; [| split; [| split]]; intros Hrate.
  - destruct Hp as [-> | [Ht ->]]; [apply Hdiv; lia |].
    apply Htie in Ht. pose proof (Hdiv 80 ltac:(lia)).
    destruct (Z.eq_dec (round_half_up c n) 80) as [He | ?]; [| lia].
    rewrite He in Ht. lia.
  - destruct Hp as [-> | [Ht ->]]; [apply Hdiv; lia |].
    apply Htie in Ht. pose proof (Hdiv 50 ltac:(lia)).
    destruct (Z.eq_dec (round_half_up c n) 50) as [He | ?]; [| lia].
    rewrite He in Ht. lia.
  - pose proof (Hlt 80 ltac:(lia)). destruct Hp as [-> | [_ ->]]; lia.
  - pose proof (Hlt 50 ltac:(lia)). destruct Hp as [-> | [_ ->]]; lia.
Qed.

(** X19. The daily summary, when it is shown, always carries the tag
    ["daily-summary"] and is not persistent.  Its emoji follows the true
    rate in spite of the rounding of the percentage (for counts with
    [0 <= completed <= total < 2^44]): the fire when at least 80% of the
    tasks are completed or when there are no tasks (the percentage is then
    100), the thumb from 50% to below 79.5%, the arm below 49.5%. *)
Theorem notifyDailySummary_follows_the_rate
    (w : Browser) (completed total : Z) (n : Notification) :
  notifyDailySummary w completed total = Some n →
  n_tag (n_options n) = Some "daily-summary"%string ∧
  n_requireInteraction (n_options n) = false ∧
  (total ≤ 0 →
     n_title n = (emojiText Fire +:+ " Daily Summary")%string ∧
     n_body (n_options n) =
       Some ("You completed " +:+ pretty completed +:+ "/" +:+ pretty total +:+
             " tasks (100%)")%string) ∧
  (0 ≤ completed ≤ total → 0 < total < 2 ^ 44 →
     (4 * total ≤ 5 * completed →
        n_title n = (emojiText Fire +:+ " Daily Summary")%string) ∧
     (total ≤ 2 * completed → 200 * completed < 159 * total →
        n_title n = (emojiText ThumbsUp +:+ " Daily Summary")%string) ∧
     (200 * completed < 99 * total →
        n_title n = (emojiText Muscle +:+ " Daily Summary")%string)).
Proof.
  unfold notifyDailySummary. intros (_ & _ & ->)%showNotification_Some. simpl.
  split; [done |]. split; [done |]. split.
  - intros Hnone. destruct (Z.ltb_spec 0 total) as [? | _]; [lia |]. done.
  - intros Hc Hn. destruct (Z.ltb_spec 0 total) as [_ | ?]; [| lia].
    destruct (percent_thresholds completed total Hc Hn) as (H80 & H50 & Hb80 & Hb50).
    split; [| split].
    + intros Hrate%H80.
      destruct (Z.leb_spec 80 (percent completed total)); [done | lia].
    + intros Hrate%H50 Hbelow%Hb80.
      destruct (Z.leb_spec 80 (percent completed total)); [lia |].
      destruct (Z.leb_spec 50 (percent completed total)); [done | lia].
    + intros Hbelow%Hb50.
      destruct (Z.leb_spec 80 (percent completed total)); [lia |].
      destruct (Z.leb_spec 50 (percent completed total)); [lia | done].
Qed.

(** *** The notified flag *)

Lemma notify_one_keeps id t :
  task_id (notify_one id t) = task_id t ∧
  task_completed (notify_one id t) = task_completed t ∧
  task_deadline (notify_one id t) = task_deadline t ∧
  task_title (notify_one id t) = task_title t.
Proof. unfold notify_one. by destruct (task_id t =? id). Qed.

Lemma newly_overdue_notify now id l seen :
  newly_overdue now (notify_one id <$> l) seen =
    notify_one id <$> newly_overdue now l seen.
Proof.
  revert seen. induction l as [| t l IH]; intros seen; [done |].
  rewrite fmap_cons. simpl newly_overdue.
  destruct (notify_one_keeps id t) as (-> & -> & -> & _).
  destruct (_ && _); [| apply IH].
  rewrite fmap_cons. f_equal. apply IH.
Qed.

Lemma fold_call_recordMissed now (fired : list Task) (f : Task → Task)
    (h : gmap string DayBucket) :
  fold_left (call (Some (onTaskOverdue now))) (f <$> fired) h =
    fold_left (call (Some (onTaskOverdue now))) fired h.
Proof.
  revert h. induction fired as [| t fired IH]; intros h; [done |].
  rewrite fmap_cons. simpl. apply IH.
Qed.

Lemma count_notify id (l : list Task) (g : bool → string → bool) :
  length (filter (λ t, g (task_completed t) (task_deadline t) = true)
            (notify_one id <$> l)) =
  length (filter (λ t, g (task_completed t) (task_deadline t) = true) l).
Proof.
  induction l as [| t l IH]; [done |].
  rewrite fmap_cons, !filter_cons.
  destruct (notify_one_keeps id t) as (_ & -> & -> & _).
  case_decide; simpl; by rewrite IH.
Qed.

(** X20. [markNotified] sets the [notified] flag of the tasks with that
    identifier, keeps the identifiers, completion flags and deadlines of all
    tasks, and doing it twice is doing it once.  The flag is read by nothing: the score and the counts are the same with and
    without it, and a run of the check enters the same identifiers into the
    notified set, records the same misses and asks for the same
    notifications (of the flagged tasks) as without it. *)
Theorem markNotified_flag_is_never_read (now id : Z) (a : App) :
  let b := markNotified id a in
  (∀ t, t ∈ tasks b → task_id t = id → task_notified t = true) ∧
  task_id <$> tasks b = task_id <$> tasks a ∧
  task_completed <$> tasks b = task_completed <$> tasks a ∧
  task_deadline <$> tasks b = task_deadline <$> tasks a ∧
  markNotified id b = b ∧
  disciplineScore (tasks b) = disciplineScore (tasks a) ∧
  pendingCount now (tasks b) = pendingCount now (tasks a) ∧
  overdueCount now (tasks b) = overdueCount now (tasks a) ∧
  notifiedTasks (autoCheck now b) = notifiedTasks (autoCheck now a) ∧
  history (autoCheck now b) = history (autoCheck now a) ∧
  notices (autoCheck now b) =
    notices a ++ (OverdueNotice <$>
                    (notify_one id <$> newly_overdue now (tasks a) (notifiedTasks a))).
Proof.
  intros b. subst b. unfold markNotified. cbn [tasks streak history notifiedTasks notices].
  change (map (notify_one id) (tasks a)) with (notify_one id <$> tasks a).
  assert (Hids : task_id <$> (notify_one id <$> tasks a) = task_id <$> tasks a).
  { rewrite <- list_fmap_compose. apply list_fmap_ext.
    intros _ t _. simpl. apply notify_one_keeps. }
  assert (Hdone : task_completed <$> (notify_one id <$> tasks a) =
                  task_completed <$> tasks a).
  { rewrite <- list_fmap_compose. apply list_fmap_ext.
    intros _ t _. simpl. apply notify_one_keeps. }
  assert (Hdue : task_deadline <$> (notify_one id <$> tasks a) =
                 task_deadline <$> tasks a).
  { rewrite <- list_fmap_compose. apply list_fmap_ext.
    intros _ t _. simpl. apply notify_one_keeps. }
  pose proof (count_notify id (tasks a)) as Hcount.
  split.
  { intros t (u & -> & _)%list_elem_of_fmap. unfold notify_one.
    destruct (Z.eqb_spec (task_id u) id); [done |]. simpl. done. }
  split; [done |]. split; [done |]. split; [done |].
  split.
  { f_equal. change (map (notify_one id) (notify_one id <$> tasks a))
      with (notify_one id <$> (notify_one id <$> tasks a)).
    rewrite <- list_fmap_compose. apply list_fmap_ext.
    intros _ t _. simpl. unfold notify_one at 2.
    destruct (Z.eqb_spec (task_id t) id) as [He | Hne].
    - unfold notify_one. simpl. by rewrite (proj2 (Z.eqb_eq _ _) He).
    - unfold notify_one. by rewrite (proj2 (Z.eqb_neq _ _) Hne). }
  split.
  { unfold disciplineScore, completedCount.
    rewrite length_fmap.
    by rewrite (Hcount (λ c _, c)). }
  split.
  { unfold pendingCount.
    by rewrite (Hcount (λ c d, negb c && negb (isOverdue now d))). }
  split.
  { unfold overdueCount.
    by rewrite (Hcount (λ c d, negb c && isOverdue now d)). }
  unfold autoCheck. cbn [tasks streak history notifiedTasks notices].
  rewrite !checkOverdueTasks_fires. cbn [seen shown world].
  rewrite newly_overdue_notify, fold_call_recordMissed.
  split; [| split; [done | done]].
  f_equal. rewrite <- list_fmap_compose. apply list_fmap_ext.
  intros _ t _. simpl. apply notify_one_keeps.
Qed.

End App.


(** ** The application on the sample host *)

(** The model of the double-precision product [(c / n) * 100] agrees with the
    binary64 instance of the standard library's IEEE 754 specification on
    every pair of counts [0 <= c <= n <= 64], and on a sample of larger
    ones. *)
Lemma scaled_quotient_matches_binary64 :
  forallb (λ '(c, n), Binary64.agrees c n)
    (Binary64.pairs 64 ++ Binary64.larger_pairs) = true.
Proof. vm_compute. reflexivity. Qed.

(** On the sample host yesterday's key is the key of the day before, and a
    miss recorded on one day is the recovery debt of the next. *)
Lemma host_yesterday_is_previous_day (now : Z) :
  getYesterdayKey Host.toISOString Host.setDateBack now =
    getTodayKey Host.toISOString (now - Host.ms_per_day).
Proof.
  unfold getYesterdayKey, getTodayKey, Host.setDateBack. by rewrite Z.mul_1_l.
Qed.

Example recovery_debt_next_day :
  getRecoveryDebt Host.toISOString Host.setDateBack (Sample.now + Host.ms_per_day)
    (recordMissed Host.toISOString Sample.now ∅) = 1 ∧
  getRecoveryDebt Host.toISOString Host.setDateBack Sample.now
    (recordMissed Host.toISOString Sample.now ∅) = 0.
Proof. vm_compute. split; reflexivity. Qed.

(** C7 (evaluation). A browser set to Central European Time, at 01:30 local
    time on 30 March 2026 (2026-03-29T23:30:00.000Z), the night after the
    clocks went forward; one miss has just been recorded.  The local day
    before has 23 hours, so [setDate] takes the clock back to
    2026-03-29T00:30:00.000Z and yesterday's key is today's key: the recovery
    debt is the miss of today, while the history has no bucket for the day
    before (2026-03-28), the day whose key the subtraction of 24 hours gives.
    On an ordinary day the same host returns the key of the day before. *)
Theorem getRecoveryDebt_reads_today_after_clock_change :
  let now := 1774827000000 in
  let h := recordMissed Host.toISOString now ∅ in
  Host.toISOString now = "2026-03-29T23:30:00.000Z"%string ∧
  Berlin.offset now = 7200000 ∧ Berlin.offset (Berlin.setDateBack now 1) = 3600000 ∧
  Host.toISOString (Berlin.setDateBack now 1) = "2026-03-29T00:30:00.000Z"%string ∧
  getTodayKey Host.toISOString now = "2026-03-29"%string ∧
  getYesterdayKey Host.toISOString Berlin.setDateBack now = "2026-03-29"%string ∧
  getTodayKey Host.toISOString (now - Host.ms_per_day) = "2026-03-28"%string ∧
  h !! "2026-03-28"%string = None ∧
  getTodayStats Host.toISOString now h = mkDay 0 1 ∧
  getRecoveryDebt Host.toISOString Berlin.setDateBack now h = 1 ∧
  getRecoveryDebt Host.toISOString Host.setDateBack now h = 0 ∧
  getYesterdayKey Host.toISOString Berlin.setDateBack Sample.now =
    "2026-02-19"%string ∧
  getTodayKey Host.toISOString Sample.now = "2026-02-20"%string.
Proof. vm_compute. repeat split; reflexivity. Qed.


(** C2 (evaluation). Completing the one pending task of [Sample.one_task]
    marks it completed, stamps it, raises the streak and asks for one
    "task completed" notification, but records nothing in the history:
    today's bucket still counts no completion, where [recordCompletion] would
    have counted one.  Completing the same task again a second later is not a
    no-op on the task list: its [completedAt] stamp is overwritten. *)
Theorem completeTask_records_no_completion :
  let id := task_id Sample.report in
  let a := completeTask Host.toISOString Sample.now id Sample.one_task in
  let a' := completeTask Host.toISOString (Sample.now + 1000) id a in
  task_completed <$> tasks a = [true] ∧
  task_completedAt <$> tasks a = [Some "2026-02-20T05:30:00.000Z"%string] ∧
  streak a = 1 ∧
  notices a = [CompletedNotice Sample.report] ∧
  history a = ∅ ∧
  getTodayStats Host.toISOString Sample.now (history a) = mkDay 0 0 ∧
  getTodayStats Host.toISOString Sample.now
    (recordCompletion Host.toISOString Sample.now (history Sample.one_task)) =
    mkDay 1 0 ∧
  task_completedAt <$> tasks a' = [Some "2026-02-20T05:30:01.000Z"%string] ∧
  streak a' = 1 ∧ notices a' = notices a.
Proof. vm_compute. repeat split; reflexivity. Qed.

(** C3 (evaluation). Add "Pay rent", due the day before, to the fresh
    application and run the check once.  The run asks for exactly one overdue
    notification, enters the task into the notified set and raises the
    [missed] count of today's bucket from 0 to 1; but the task's [notified]
    flag is still false. *)
Theorem first_tick_leaves_notified_flag_unset :
  let a0 := addTask Host.toISOString Sample.now
              (mkInput "Pay rent" "2026-02-19T09:00") Sample.fresh in
  let a1 := autoCheck Host.toISOString Host.parseDate (Sample.now + 1) a0 in
  (∃ t, tasks a0 = [t] ∧
        notices a1 = [OverdueNotice t] ∧
        notifiedTasks a1 = [task_id t]) ∧
  getTodayStats Host.toISOString (Sample.now + 1) (history a0) = mkDay 0 0 ∧
  getTodayStats Host.toISOString (Sample.now + 1) (history a1) = mkDay 0 1 ∧
  task_notified <$> tasks a1 = [false].
Proof.
  vm_compute. split; [| repeat split; reflexivity].
  eexists. repeat split; reflexivity.
Qed.

(** C4 (counterexample). [addTask] with an empty title and a deadline that is
    not a date does not fail: it adds the task. *)
Lemma addTask_accepts_invalid_input :
  Host.parseDate "not a date" = None ∧
  tasks (addTask Host.toISOString Sample.now (mkInput "" "not a date") Sample.fresh) =
    [ {| task_id := Sample.now;
         task_title := "";
         task_deadline := "not a date";
         task_completed := false;
         task_completedAt := None;
         task_createdAt := "2026-02-20T05:30:00.000Z";
         task_notified := false |} ].
Proof. vm_compute. split; reflexivity. Qed.

(** C5 (counterexample). With 23 of 40 tasks completed the exact percentage
    is 57.5 and the score is 57; with 1 of 8 completed the exact percentage is
    12.5 and the score is 13.  No rule for rounding an exact half gives both,
    and the rounding that takes a half up gives 58 for the first. *)
Lemma disciplineScore_splits_ties :
  disciplineScore (Sample.batch 23 40) = 57 ∧
  completedCount (Sample.batch 23 40) = 23 ∧
  2 * (100 * 23) = (2 * 57 + 1) * 40 ∧
  round_half_up 23 40 = 58 ∧
  disciplineScore (Sample.batch 1 8) = 13 ∧
  completedCount (Sample.batch 1 8) = 1 ∧
  2 * (100 * 1) = (2 * 12 + 1) * 8 ∧
  round_half_up 1 8 = 13.
Proof. vm_compute. repeat split; reflexivity. Qed.

(** C8 (counterexample). For the one-bucket history
    [{d: {completed: 23, missed: 17}}] the exact percentage is 57.5 and the
    rate is 57; for [{d: {completed: 1, missed: 7}}] the exact percentage is
    12.5 and the rate is 13. *)
Lemma getOverallCompletionRate_splits_ties :
  getOverallCompletionRate {[ "d"%string := mkDay 23 17 ]} = 57 ∧
  2 * (100 * 23) = (2 * 57 + 1) * (23 + 17) ∧
  round_half_up 23 (23 + 17) = 58 ∧
  getOverallCompletionRate {[ "d"%string := mkDay 1 7 ]} = 13 ∧
  2 * (100 * 1) = (2 * 12 + 1) * (1 + 7) ∧
  round_half_up 1 (1 + 7) = 13.
Proof. vm_compute. repeat split; reflexivity. Qed.

(** C9 (counterexample). When the write of the 31-bucket history
    [Sample.january] fails with a [QuotaExceededError], the bucket of
    2026-01-01 is dropped: its [completed] count falls from 1 to 0 without
    [clearHistory]. *)
Lemma quota_error_drops_a_bucket :
  let h := Sample.january in
  let h' := persistHistory (StorageError "QuotaExceededError") h in
  h !! "2026-01-01"%string = Some (mkDay 1 0) ∧
  h' !! "2026-01-01"%string = None ∧
  h' ≠ clearHistory h ∧
  ¬ counts_le h h'.
Proof.
  intros h h'.
  assert (H1 : h !! "2026-01-01"%string = Some (mkDay 1 0)) by (vm_compute; reflexivity).
  assert (H2 : h' !! "2026-01-01"%string = None) by (vm_compute; reflexivity).
  assert (H3 : h' !! "2026-01-02"%string = Some (mkDay 1 0)) by (vm_compute; reflexivity).
  clearbody h h'.
  split; [exact H1 | split; [exact H2 | split]].
  - intros Heq. rewrite Heq in H3. unfold clearHistory in H3.
    rewrite lookup_empty in H3. discriminate H3.
  - intros Hle. destruct (Hle "2026-01-01"%string) as [Hc _].
    unfold bucket_or_zeros in Hc. rewrite H1, H2 in Hc. simpl in Hc. lia.
Qed.

(** *** Instances of the theorems that carry hypotheses *)

Lemma two_days_counts_nonneg : counts_nonneg Sample.two_days.
Proof.
  change (map_Forall (λ _ b, 0 ≤ day_completed b ∧ 0 ≤ day_missed b) Sample.two_days).
  apply (bool_decide_unpack _). vm_compute. exact I.
Defined.


(** C1 (instance). The overdue "Pay rent" task, in a list of two tasks, over
    three runs of the check a minute apart, from a fresh monitor. *)
Lemma overdue_task_notified_once_witness :
  let l := [Sample.report; Sample.rent] in
  let later := [(Sample.now + 60000, l); (Sample.now + 120000, l)] in
  let m' := ticks Host.parseDate (Some log_call) ((Sample.now, l) :: later)
              (mkMonitor [] [] []) in
  Sample.rent ∈ l ∧
  Host.parseDate (task_deadline Sample.rent) = Some 1771491600000 ∧
  count_id (task_id Sample.rent) (task_id <$> world m') = 1%nat ∧
  count_id (task_id Sample.rent) (seen m') = 1%nat.
Proof.
  intros l later m'.
  assert (Hin : Sample.rent ∈ l) by (apply (bool_decide_unpack _); vm_compute; exact I).
  assert (Hd : Host.parseDate (task_deadline Sample.rent) = Some 1771491600000)
    by (vm_compute; reflexivity).
  split; [exact Hin | split; [exact Hd |]].
  apply (overdue_task_notified_once Host.parseDate l Sample.rent 1771491600000
           Sample.now later).
  - apply monitor_inv_fresh.
  - exact Hin.
  - reflexivity.
  - exact Hd.
  - reflexivity.
Defined.

(** C5 (instance). A list of 40 tasks, 23 of them completed. *)
Lemma disciplineScore_rounds_percentage_witness :
  let l := Sample.batch 23 40 in
  Z.of_nat (length l) < 2 ^ 32 ∧
  0 ≤ disciplineScore l ≤ 100 ∧
  (disciplineScore l = round_half_up (completedCount l) (Z.of_nat (length l)) ∨
   is_tie (completedCount l) (Z.of_nat (length l)) ∧
   disciplineScore l = round_half_up (completedCount l) (Z.of_nat (length l)) - 1).
Proof.
  intros l.
  assert (Hlen : Z.of_nat (length l) < 2 ^ 32) by (vm_compute; reflexivity).
  destruct (disciplineScore_rounds_percentage l Hlen) as (_ & Hround & Hrange).
  split; [exact Hlen | split; [exact Hrange |]].
  apply Hround. discriminate.
Defined.

(** C8 (instance). The two-day history of the specification. *)
Lemma getOverallCompletionRate_rounds_percentage_witness :
  let h := Sample.two_days in
  counts_nonneg h ∧
  total_completed h + total_missed h < 2 ^ 44 ∧
  0 ≤ getOverallCompletionRate h ≤ 100 ∧
  getOverallCompletionRate h =
    percent (total_completed h) (total_completed h + total_missed h).
Proof.
  intros h.
  assert (Hsize : total_completed h + total_missed h < 2 ^ 44)
    by (vm_compute; reflexivity).
  destruct (getOverallCompletionRate_rounds_percentage h two_days_counts_nonneg Hsize)
    as (_ & Hround & Hrange & _).
  split; [exact two_days_counts_nonneg | split; [exact Hsize | split; [exact Hrange |]]].
  apply Hround. vm_compute. reflexivity.
Defined.

(** C9 (instance). Recording on the two-day history at [Sample.now]. *)
Lemma history_counts_grow_until_dropped_witness :
  let h := Sample.two_days in
  let today := getTodayKey Host.toISOString Sample.now in
  counts_nonneg h ∧
  recordMissed Host.toISOString Sample.now h !! today =
    Some {| day_completed := day_completed (bucket_or_zeros h today);
            day_missed := day_missed (bucket_or_zeros h today) + 1 |} ∧
  counts_le h (recordCompletion Host.toISOString Sample.now h).
Proof.
  intros h today.
  destruct (history_counts_grow_until_dropped Host.toISOString Sample.now h
              two_days_counts_nonneg) as ((_ & _ & _ & Hle) & (Hmissed & _) & _).
  split; [exact two_days_counts_nonneg | split; [exact Hmissed | exact Hle]].
Defined.


(** *** Instances of the further properties *)

(** X2 (instance). Adding "Pay rent" to [Sample.one_task] at [Sample.now]
    and deleting it again. *)
Lemma deleteTask_undoes_addTask_witness :
  let inp := mkInput "Pay rent" "2026-02-19T09:00" in
  (Sample.now ∉ task_id <$> tasks Sample.one_task) ∧
  deleteTask Sample.now (addTask Host.toISOString Sample.now inp Sample.one_task) =
    Sample.one_task.
Proof.
  intros inp.
  assert (Hfresh : Sample.now ∉ task_id <$> tasks Sample.one_task)
    by (apply (bool_decide_unpack _); vm_compute; exact I).
  split; [exact Hfresh |].
  exact (deleteTask_undoes_addTask Host.toISOString Sample.now inp Sample.one_task
           Hfresh).
Defined.

(** X5 (instance). Three tasks, all of them completed. *)
Lemma disciplineScore_anchors_witness :
  let a := mkApp (Sample.batch 3 3) 3 ∅ [] [] in
  Z.of_nat (length (tasks a)) < 2 ^ 32 ∧ tasks a ≠ [] ∧
  Forall (λ t, task_completed t = true) (tasks a) ∧
  disciplineScore (tasks a) = 100.
Proof.
  intros a.
  assert (Hlen : Z.of_nat (length (tasks a)) < 2 ^ 32) by (vm_compute; reflexivity).
  assert (Hne : tasks a ≠ []) by (vm_compute; discriminate).
  assert (Hall : Forall (λ t, task_completed t = true) (tasks a))
    by (apply (bool_decide_unpack _); vm_compute; exact I).
  destruct (disciplineScore_anchors a Hlen Hne) as (Hfull & _).
  split; [exact Hlen | split; [exact Hne | split; [exact Hall |]]].
  exact (Hfull Hall).
Defined.

(** X6 (instance). Completing the task of [Sample.one_task]. *)
Lemma disciplineScore_monotone_witness :
  let a := Sample.one_task in
  Z.of_nat (length (tasks a)) < 2 ^ 32 - 1 ∧
  disciplineScore (tasks a) ≤
    disciplineScore (tasks (completeTask Host.toISOString Sample.now
                              (task_id Sample.report) a)).
Proof.
  intros a.
  assert (Hlen : Z.of_nat (length (tasks a)) < 2 ^ 32 - 1) by (vm_compute; reflexivity).
  destruct (disciplineScore_monotone Host.toISOString a Hlen) as (Hup & _).
  split; [exact Hlen | apply Hup].
Defined.

(** X7 (instance). A deadline 27 hours and 30 minutes after [Sample.now]. *)
Lemma getTimeRemaining_whole_hours_and_minutes_witness :
  let deadline := "2026-02-21T09:00"%string in
  Host.parseDate deadline = Some 1771664400000 ∧
  1771664400000 - Sample.now < 2 ^ 53 ∧
  getTimeRemaining Host.parseDate Sample.now deadline =
    mkRemaining false (Some 27) (Some 30) "1 day left".
Proof.
  intros deadline.
  assert (Hd : Host.parseDate deadline = Some 1771664400000)
    by (vm_compute; reflexivity).
  assert (Hnear : 1771664400000 - Sample.now < 2 ^ 53) by (vm_compute; reflexivity).
  destruct (getTimeRemaining_whole_hours_and_minutes Host.parseDate Sample.now
              1771664400000 deadline Hd Hnear) as (_ & _ & _ & _ & Hahead).
  split; [exact Hd | split; [exact Hnear |]].
  destruct Hahead as (Hr & _); [vm_compute; reflexivity |].
  rewrite Hr. vm_compute. reflexivity.
Defined.

(** X11 (instance). The task of [Sample.one_task], completed at [Sample.now],
    over two later runs of the check, the second after its deadline. *)
Lemma completed_task_never_notified_witness :
  let id := task_id Sample.report in
  let nows := [Sample.now + 60000; Sample.now + 200000000] in
  (id ∉ notifiedTasks Sample.one_task) ∧
  (id ∉ notifiedTasks
          (autoChecks Host.toISOString Host.parseDate nows
             (completeTask Host.toISOString Sample.now id Sample.one_task))).
Proof.
  intros id nows.
  assert (Hnew : id ∉ notifiedTasks Sample.one_task)
    by (apply (bool_decide_unpack _); vm_compute; exact I).
  split; [exact Hnew |].
  exact (proj1 (completed_task_never_notified Host.toISOString Host.parseDate
                  Sample.now id nows Sample.one_task Hnew)).
Defined.

(** X12 (instance). The overdue "Pay rent" task, checked, the tracking reset,
    and checked again. *)
Lemma resetNotifications_repeats_the_run_witness :
  let a := mkApp [Sample.rent] 0 ∅ [] [] in
  let a1 := autoCheck Host.toISOString Host.parseDate Sample.now a in
  let a2 := autoCheck Host.toISOString Host.parseDate Sample.now
              (resetNotifications a1) in
  notifiedTasks a = [] ∧
  notifiedTasks a2 = notifiedTasks a1 ∧
  notices a2 = notices a1 ++
    (OverdueNotice <$> newly_overdue Host.parseDate Sample.now (tasks a) []).
Proof.
  intros a a1 a2.
  destruct (resetNotifications_repeats_the_run Host.toISOString Host.parseDate
              Sample.now a eq_refl) as (_ & _ & Hagain & Hset & _).
  split; [reflexivity | split; [exact Hset | exact Hagain]].
Defined.

(** X16 (instance). The notifications for the two sample tasks in a browser
    that shows them. *)
Lemma notification_tags_identify_tasks_witness :
  let w := mkBrowser true Granted false in
  let locale := λ d : option Z, default "Invalid Date"%string (Host.toISOString <$> d) in
  ∃ o1 c2,
    notifyOverdueTask Host.parseDate "Task Overdue!" locale w Sample.report = Some o1 ∧
    notifyTaskCompleted "Task Completed!" w Sample.rent = Some c2 ∧
    n_tag (n_options o1) ≠ n_tag (n_options c2).
Proof.
  intros w locale. eexists _, _.
  split; [reflexivity |]. split; [reflexivity |].
  exact (proj2 (proj2 (notification_tags_identify_tasks Host.parseDate
                         "Task Overdue!" "Task Completed!" locale w
                         Sample.report Sample.rent _ _ _ _
                         eq_refl eq_refl eq_refl eq_refl))).
Defined.

(** X17 (instance). [Math.random()] returning one half. *)
Lemma generateWarning_falls_back_in_range_witness :
  let random := mkNum 1 (-1) in
  0 ≤ num random ∧
  2 ^ 53 * num random ≤ (2 ^ 53 - 1) * den random ∧
  ∃ message,
    generateWarning FetchThrows random Sample.rent = Some message ∧
    message ∈ fallback_messages Sample.rent.
Proof.
  intros random.
  assert (Hnum : 0 ≤ num random) by (vm_compute; discriminate).
  assert (Hbelow : 2 ^ 53 * num random ≤ (2 ^ 53 - 1) * den random)
    by (vm_compute; discriminate).
  split; [exact Hnum | split; [exact Hbelow |]].
  destruct (generateWarning_falls_back_in_range random Sample.rent Hnum Hbelow)
    as (message & Hm & Hin & _).
  exists message. split; [exact Hm | exact Hin].
Defined.

(** X19 (instance). Four tasks of five completed. *)
Lemma notifyDailySummary_follows_the_rate_witness :
  let w := mkBrowser true Granted false in
  let emoji := λ e, match e with
                    | Fire => "fire" | ThumbsUp => "thumb" | Muscle => "arm"
                    end%string in
  ∃ n, notifyDailySummary emoji w 4 5 = Some n ∧
       n_title n = (emoji Fire +:+ " Daily Summary")%string.
Proof.
  intros w emoji. eexists. split; [reflexivity |].
  destruct (notifyDailySummary_follows_the_rate emoji w 4 5 _ eq_refl)
    as (_ & _ & _ & Hrate).
  destruct Hrate as (Hfire & _); [lia | lia |].
  apply Hfire. lia.
Defined.
